(** * The transmit buffer pool of the upper PHY

    A shallow embedding of [lib/phy/upper/tx_buffer_pool_impl.cpp]: the
    formatter of [tx_buffer_identifier], the two [reserve_buffer] overloads and
    [run_slot] of [tx_buffer_pool_impl].

    Conventions of the embedding.
    - A buffer index ([unsigned] in the source) is a [nat]; it is only ever
      used as a position in [buffer_pool].
    - A handle ([unique_tx_buffer]) is an [option nat]: [None] is the
      default-constructed, invalid handle, [Some i] is the handle built from
      the buffer at [buffer_pool[i]].
    - The methods run under [std::unique_lock<std::mutex>]: each call is one
      atomic transition of the pool, which is what the functions below are.
    - The calls to [logger] have no effect on the pool and are left out.
    - [buffer_pool[i]] with [i] out of range and [top()] of an empty queue are
      undefined behaviour in the source; the operations return [None] there
      (the outer [option]), and the theorems show that this never happens in a
      well-formed pool. *)

From Stdlib Require Import NArith String Ascii DecimalString HexadecimalString.
From Stdlib Require Import DecimalN HexadecimalN ZArith.
From stdpp Require Import base option list.

Local Open Scope N_scope.

(** ** Identifiers and their formatter *)

(** [srsran::tx_buffer_identifier]: the formatter reads [value.rnti] and
    [value.harq_ack_id]. *)
Record tx_buffer_identifier : Type := mk_tx_buffer_identifier {
  rnti : N;
  harq_ack_id : N
}.

#[global] Instance tx_buffer_identifier_eq_dec : EqDecision tx_buffer_identifier.
Proof. solve_decision. Defined.

(** [tx_buffer_identifier id = {}]: the value-initialised identifier. *)
Definition null_identifier : tx_buffer_identifier :=
  {| rnti := 0; harq_ack_id := 0 |}.

Module fmt.

(** The two replacement fields the formatter uses: [{}] prints an unsigned
    integer in decimal, [{:#x}] in lower-case hexadecimal after [0x]. Any
    other field is a format error. *)
Definition dec_digits (arg : N) : string :=
  DecimalString.NilEmpty.string_of_uint (N.to_uint arg).

Definition hex_digits (arg : N) : string :=
  HexadecimalString.NilEmpty.string_of_uint (N.to_hex_uint arg).

Definition render (field : string) (arg : N) : option string :=
  if String.eqb field "" then Some (dec_digits arg)
  else if String.eqb field ":#x" then Some (String.append "0x" (hex_digits arg))
  else None.

(** [format_to] over the characters of the format string. [field] is [Some f]
    while the scan is inside a replacement field whose text so far is [f]. *)
Fixpoint format_loop (s : string) (field : option string) (args : list N)
    (out : string) : option string :=
  match s with
  | EmptyString =>
      match field with
      | None => Some out
      | Some _ => None
      end
  | String c r =>
      match field with
      | None =>
          if Ascii.eqb c "{" then format_loop r (Some EmptyString) args out
          else format_loop r None args (String.append out (String c EmptyString))
      | Some f =>
          if Ascii.eqb c "}" then
            match args with
            | [] => None
            | a :: args' =>
                match render f a with
                | Some txt => format_loop r None args' (String.append out txt)
                | None => None
                end
            end
          else format_loop r (Some (String.append f (String c EmptyString))) args out
      end
  end.

Definition format_to (s : string) (args : list N) : option string :=
  format_loop s None args EmptyString.

(** [fmt::formatter<srsran::tx_buffer_identifier>::format]. *)
Definition format (value : tx_buffer_identifier) : option string :=
  format_to "rnti={:#x} h_id={}" [rnti value; harq_ack_id value].

End fmt.

(** ** Slots *)

(** Modelled from the spec: [slot_point] is declared in a header that is not
    part of the sources. The spec treats a slot as a counter with [+] and
    [>=] (section 8: "slot [>= S+T]"), so it is a natural number here, without
    the wrap-around of the radio frame numbering. *)
Definition slot_point : Type := N.

(** ** A buffer *)

Module tx_buffer_impl.

(** Modelled from the spec: the class [tx_buffer_impl] ([match_id], [reserve],
    [run_slot]) is declared in a header that is not part of the sources. The
    definitions below follow section 3 ("Buffer") and section 4.1 of the
    spec. *)
Inductive state : Type :=
  | free
  | reserved.

#[global] Instance state_eq_dec : EqDecision state.
Proof. solve_decision. Defined.

(** Section 4.2: the outcomes of a buffer reservation. *)
Inductive tx_buffer_status : Type :=
  | successful
  | already_reserved_elsewhere
  | insufficient_capacity.

#[global] Instance tx_buffer_status_eq_dec : EqDecision tx_buffer_status.
Proof. solve_decision. Defined.

(** "its current identifier (valid only while reserved); an expiry slot
    value; a state tag {free, reserved}". *)
Record t : Type := mk {
  current_state : state;
  reservation_id : tx_buffer_identifier;
  reservation_expire_slot : slot_point
}.

#[global] Instance t_eq_dec : EqDecision t.
Proof. solve_decision. Defined.

(** A buffer as the pool's constructor makes it. *)
Definition init : t :=
  {| current_state := free;
     reservation_id := null_identifier;
     reservation_expire_slot := 0 |}.

(** "[matches(identifier)]: true iff currently reserved under exactly that
    identifier." *)
Definition match_id (b : t) (id : tx_buffer_identifier) : bool :=
  bool_decide (current_state b = reserved) && bool_decide (reservation_id b = id).

(** "[reserve(identifier, expire_slot, codeblock_count)]: fails with
    insufficient-capacity if [codeblock_count] exceeds the Buffer's maximum;
    succeeds otherwise, overwriting the stored identifier and expiry slot.
    Side effect: transitions to reserved." [max_codeblocks] is the per-buffer
    maximum of the pool's configuration (section 6). *)
Definition reserve (max_codeblocks : N) (id : tx_buffer_identifier)
    (expire_slot : slot_point) (nof_codeblocks : N) (b : t)
    : tx_buffer_status * t :=
  if max_codeblocks <? nof_codeblocks then (insufficient_capacity, b)
  else (successful,
        {| current_state := reserved;
           reservation_id := id;
           reservation_expire_slot := expire_slot |}).

(** "[advance_slot(current_slot) -> still_reserved]: returns false (and
    transitions to free, clearing the identifier) iff
    [current_slot >= expiry_slot]; otherwise returns true with no state
    change." *)
Definition advance_slot (slot : slot_point) (b : t) : bool * t :=
  if reservation_expire_slot b <=? slot then
    (false,
     {| current_state := free;
        reservation_id := null_identifier;
        reservation_expire_slot := reservation_expire_slot b |})
  else (true, b).

(** The member the pool calls. [tx_buffer_pool_impl::run_slot] binds its
    result to [bool available] and pushes the index to [available_buffers]
    when it is true: the member reports that the buffer is available, the
    complement of the spec's [still_reserved]. This is also what the scenario
    of section 8 needs: at slot 14 the buffers that expire at 14 go to the
    free collection. *)
Definition run_slot (slot : slot_point) (b : t) : bool * t :=
  let '(still_reserved, b') := advance_slot slot b in
  (negb still_reserved, b').

End tx_buffer_impl.

Export tx_buffer_impl(tx_buffer_status(..)).

(** ** The index queues *)

Module index_queue.

(** Modelled from the spec: the type of [available_buffers] and
    [reserved_buffers] is declared in [tx_buffer_pool_impl.h], which is not
    part of the sources. The code uses it through [push], [top], [pop],
    [empty], [size] and a range-[for] over its elements; section 9 of the spec
    asks for "O(1) amortized insert/remove-one" and section 4.2 says that the
    sweep of [run_slot] visits every entry once because it counts the entries
    before it iterates, which is the rotation of a first-in first-out queue.
    The queue is the list of its elements, oldest first. *)
Definition t : Type := list nat.

Definition empty (q : t) : bool :=
  match q with
  | [] => true
  | _ :: _ => false
  end.

Definition size (q : t) : nat := length q.

(** The oldest element; [None] on an empty queue. *)
Definition top (q : t) : option nat := head q.

(** Removes the oldest element. *)
Definition pop (q : t) : t := tail q.

(** Appends at the back. *)
Definition push (x : nat) (q : t) : t := q ++ [x].

End index_queue.

(** ** The pool *)

(** [unique_tx_buffer]: [None] is [unique_tx_buffer()], [Some i] is the
    handle constructed from the buffer at [buffer_pool[i]]. *)
Definition unique_tx_buffer : Type := option nat.

(** The data members of [tx_buffer_pool_impl] that the three methods read and
    write. [max_codeblocks] is the per-buffer codeblock maximum of the
    configuration (spec, section 6). *)
Record tx_buffer_pool_impl : Type := mk_pool {
  buffer_pool : list tx_buffer_impl.t;
  available_buffers : index_queue.t;
  reserved_buffers : index_queue.t;
  expire_timeout_slots : N;
  max_codeblocks : N
}.

Definition set_buffer (p : tx_buffer_pool_impl) (i : nat) (b : tx_buffer_impl.t)
    : tx_buffer_pool_impl :=
  {| buffer_pool := <[i := b]> (buffer_pool p);
     available_buffers := available_buffers p;
     reserved_buffers := reserved_buffers p;
     expire_timeout_slots := expire_timeout_slots p;
     max_codeblocks := max_codeblocks p |}.

(** Lines 43-58, the search part: the first index of [reserved_buffers], in
    iteration order, whose buffer matches [id]. The inner [option] is [None]
    when the loop ends without a match. *)
Fixpoint find_reserved (bufs : list tx_buffer_impl.t) (id : tx_buffer_identifier)
    (q : list nat) : option (option nat) :=
  match q with
  | [] => Some None
  | i_buffer :: q' =>
      buffer ← bufs !! i_buffer;
      if tx_buffer_impl.match_id buffer id then Some (Some i_buffer)
      else find_reserved bufs id q'
  end.

(** Lines 60-87 and, statement for statement, lines 96-123: the reservation
    of the first available buffer. *)
Definition reserve_available (p : tx_buffer_pool_impl) (id : tx_buffer_identifier)
    (expire_slot : slot_point) (nof_codeblocks : N)
    : option (tx_buffer_pool_impl * unique_tx_buffer) :=
  if index_queue.empty (available_buffers p) then Some (p, None)
  else
    buffer_i ← index_queue.top (available_buffers p);
    buffer ← buffer_pool p !! buffer_i;
    let '(status, buffer') :=
      tx_buffer_impl.reserve (max_codeblocks p) id expire_slot nof_codeblocks buffer in
    if bool_decide (status ≠ successful) then Some (set_buffer p buffer_i buffer', None)
    else
      Some ({| buffer_pool := <[buffer_i := buffer']> (buffer_pool p);
               available_buffers := index_queue.pop (available_buffers p);
               reserved_buffers := index_queue.push buffer_i (reserved_buffers p);
               expire_timeout_slots := expire_timeout_slots p;
               max_codeblocks := max_codeblocks p |},
            Some buffer_i).

(** [tx_buffer_pool_impl::reserve_buffer(slot, id, nof_codeblocks)]. *)
Definition reserve_buffer (p : tx_buffer_pool_impl) (slot : slot_point)
    (id : tx_buffer_identifier) (nof_codeblocks : N)
    : option (tx_buffer_pool_impl * unique_tx_buffer) :=
  let expire_slot := slot + expire_timeout_slots p in
  found ← find_reserved (buffer_pool p) id (reserved_buffers p);
  match found with
  | Some i_buffer =>
      buffer ← buffer_pool p !! i_buffer;
      let '(status, buffer') :=
        tx_buffer_impl.reserve (max_codeblocks p) id expire_slot nof_codeblocks buffer in
      if bool_decide (status ≠ successful) then Some (set_buffer p i_buffer buffer', None)
      else Some (set_buffer p i_buffer buffer', Some i_buffer)
  | None => reserve_available p id expire_slot nof_codeblocks
  end.

(** [tx_buffer_pool_impl::reserve_buffer(slot, nof_codeblocks)]. *)
Definition reserve_buffer_no_id (p : tx_buffer_pool_impl) (slot : slot_point)
    (nof_codeblocks : N) : option (tx_buffer_pool_impl * unique_tx_buffer) :=
  let expire_slot := slot + 1 in
  let id := null_identifier in
  reserve_available p id expire_slot nof_codeblocks.

(** The loop of [tx_buffer_pool_impl::run_slot], [count] iterations. Next to
    the pool it returns the indices on which [buffer.run_slot] was called, in
    call order. *)
Fixpoint run_slot_loop (count : nat) (slot : slot_point) (p : tx_buffer_pool_impl)
    : option (tx_buffer_pool_impl * list nat) :=
  match count with
  | O => Some (p, [])
  | S count' =>
      buffer_i ← index_queue.top (reserved_buffers p);
      let reserved' := index_queue.pop (reserved_buffers p) in
      buffer ← buffer_pool p !! buffer_i;
      let '(available, buffer') := tx_buffer_impl.run_slot slot buffer in
      let p' :=
        {| buffer_pool := <[buffer_i := buffer']> (buffer_pool p);
           available_buffers :=
             if available then index_queue.push buffer_i (available_buffers p)
             else available_buffers p;
           reserved_buffers :=
             if available then reserved' else index_queue.push buffer_i reserved';
           expire_timeout_slots := expire_timeout_slots p;
           max_codeblocks := max_codeblocks p |} in
      '(p'', visited) ← run_slot_loop count' slot p';
      Some (p'', buffer_i :: visited)
  end.

(** [tx_buffer_pool_impl::run_slot(slot)] with the list of visited indices. *)
Definition run_slot_visit (slot : slot_point) (p : tx_buffer_pool_impl)
    : option (tx_buffer_pool_impl * list nat) :=
  let count := index_queue.size (reserved_buffers p) in
  run_slot_loop count slot p.

(** [tx_buffer_pool_impl::run_slot(slot)]. *)
Definition run_slot (slot : slot_point) (p : tx_buffer_pool_impl)
    : option tx_buffer_pool_impl :=
  fst <$> run_slot_visit slot p.

(** ** Construction *)

(** Section 6 of the spec: "pool capacity (max simultaneous Buffers),
    per-Buffer maximum codeblock capacity, and [expire_timeout_slots] are
    supplied as an immutable configuration at construction". *)
Record tx_buffer_pool_config : Type := mk_config {
  cfg_nof_buffers : nat;
  cfg_max_codeblocks : N;
  cfg_expire_timeout_slots : N
}.

(** Modelled from the spec: [create_tx_buffer_pool] calls the constructor of
    [tx_buffer_pool_impl], which is declared in a header that is not part of
    the sources. Section 3: the buffers are allocated once at construction;
    every index starts in the free collection. *)
Definition create_tx_buffer_pool (config : tx_buffer_pool_config)
    : tx_buffer_pool_impl :=
  {| buffer_pool := replicate (cfg_nof_buffers config) tx_buffer_impl.init;
     available_buffers := seq 0 (cfg_nof_buffers config);
     reserved_buffers := [];
     expire_timeout_slots := cfg_expire_timeout_slots config;
     max_codeblocks := cfg_max_codeblocks config |}.

(** ** Sequences of calls *)

(** The three public methods of the pool. *)
Inductive pool_call : Type :=
  | call_reserve (slot : slot_point) (id : tx_buffer_identifier) (nof_codeblocks : N)
  | call_reserve_no_id (slot : slot_point) (nof_codeblocks : N)
  | call_run_slot (slot : slot_point).

(** One call: the pool after it and the handle it returns ([run_slot] returns
    nothing, which is [None] here). *)
Definition do_call (c : pool_call) (p : tx_buffer_pool_impl)
    : option (tx_buffer_pool_impl * unique_tx_buffer) :=
  match c with
  | call_reserve slot id n => reserve_buffer p slot id n
  | call_reserve_no_id slot n => reserve_buffer_no_id p slot n
  | call_run_slot slot => p' ← run_slot slot p; Some (p', None)
  end.

(** A sequence of calls, with the handles returned, in call order. *)
Fixpoint do_calls (cs : list pool_call) (p : tx_buffer_pool_impl)
    : option (tx_buffer_pool_impl * list unique_tx_buffer) :=
  match cs with
  | [] => Some (p, [])
  | c :: cs' =>
      '(p1, h) ← do_call c p;
      '(p2, hs) ← do_calls cs' p1;
      Some (p2, h :: hs)
  end.

(** ** Well-formed pools *)

Definition capacity (p : tx_buffer_pool_impl) : nat := length (buffer_pool p).

(** The free and the reserved indices, together, are the indices
    [0, capacity) with each index once. *)
Definition pool_wf (p : tx_buffer_pool_impl) : Prop :=
  available_buffers p ++ reserved_buffers p ≡ₚ seq 0 (capacity p).

(** The buffer at index [i] is reserved under [id] until [expire]. *)
Definition reserved_until (p : tx_buffer_pool_impl) (i : nat)
    (id : tx_buffer_identifier) (expire : slot_point) : Prop :=
  i ∈ reserved_buffers p ∧
  buffer_pool p !! i =
    Some {| tx_buffer_impl.current_state := tx_buffer_impl.reserved;
            tx_buffer_impl.reservation_id := id;
            tx_buffer_impl.reservation_expire_slot := expire |}.

(** The buffer at index [i] is in the free collection, with its identifier
    cleared. *)
Definition is_free (p : tx_buffer_pool_impl) (i : nat) : Prop :=
  i ∈ available_buffers p ∧ (i ∉ reserved_buffers p) ∧
  (∃ b, buffer_pool p !! i = Some b ∧
        tx_buffer_impl.current_state b = tx_buffer_impl.free ∧
        tx_buffer_impl.reservation_id b = null_identifier).

(** The reservation of the buffer at index [i] has reached its expiry slot at
    [slot]. *)
Definition expired_at (slot : slot_point) (bufs : list tx_buffer_impl.t)
    (i : nat) : bool :=
  match bufs !! i with
  | Some b => tx_buffer_impl.reservation_expire_slot b <=? slot
  | None => false
  end.

(** No call of the sequence returned a handle to the buffer at index [i]. *)
Definition not_handed_out (i : nat) (hs : list unique_tx_buffer) : Prop :=
  Some i ∉ hs.

(** Every [run_slot] call of the sequence is for a slot before [expire]. *)
Definition slots_before (expire : slot_point) (cs : list pool_call) : Prop :=
  ∀ s, call_run_slot s ∈ cs → s < expire.

(** The bookkeeping of the reserved queue agrees with the buffers: a buffer
    whose index is in the reserved queue is in state reserved, and two
    different reserved indices are never bound to the same identifier unless
    it is the null identifier. *)
Definition reserved_consistent (p : tx_buffer_pool_impl) : Prop :=
  (∀ i b, i ∈ reserved_buffers p → buffer_pool p !! i = Some b →
          tx_buffer_impl.current_state b = tx_buffer_impl.reserved) ∧
  (∀ i j bi bj,
     i ∈ reserved_buffers p → j ∈ reserved_buffers p →
     buffer_pool p !! i = Some bi → buffer_pool p !! j = Some bj →
     tx_buffer_impl.reservation_id bi = tx_buffer_impl.reservation_id bj →
     tx_buffer_impl.reservation_id bi ≠ null_identifier →
     i = j).

(** The text has no blank. *)
Fixpoint no_space (s : string) : Prop :=
  match s with
  | EmptyString => True
  | String c r => c ≠ " "%char ∧ no_space r
  end.

(** No reserved buffer has reached its expiry slot at [slot]. *)
Definition none_expired (slot : slot_point) (p : tx_buffer_pool_impl) : Prop :=
  ∀ i b, i ∈ reserved_buffers p → buffer_pool p !! i = Some b →
         slot < tx_buffer_impl.reservation_expire_slot b.

(** ** Examples *)

(** The configuration of the scenario in section 8 of the spec, with room for
    eight codeblocks in a buffer. *)
Definition example_config : tx_buffer_pool_config :=
  {| cfg_nof_buffers := 2; cfg_max_codeblocks := 8; cfg_expire_timeout_slots := 4 |}.

Definition example_pool : tx_buffer_pool_impl :=
  create_tx_buffer_pool example_config.

Definition id_A : tx_buffer_identifier := {| rnti := 17921; harq_ack_id := 1 |}.
Definition id_B : tx_buffer_identifier := {| rnti := 17922; harq_ack_id := 1 |}.
Definition id_C : tx_buffer_identifier := {| rnti := 17923; harq_ack_id := 2 |}.

(** A pool whose buffer 1 is reserved under [id] until slot 14 and whose
    buffer 0 is free. *)
Definition example_pool_reserved (id : tx_buffer_identifier) : tx_buffer_pool_impl :=
  {| buffer_pool :=
       [tx_buffer_impl.init;
        tx_buffer_impl.mk tx_buffer_impl.reserved id 14];
     available_buffers := [0%nat];
     reserved_buffers := [1%nat];
     expire_timeout_slots := 4;
     max_codeblocks := 8 |}.

(** A pool with both buffers reserved, until slots 14 and 15, and nothing
    free. *)
Definition example_pool_full : tx_buffer_pool_impl :=
  {| buffer_pool :=
       [tx_buffer_impl.mk tx_buffer_impl.reserved id_A 14;
        tx_buffer_impl.mk tx_buffer_impl.reserved id_B 15];
     available_buffers := [];
     reserved_buffers := [0%nat; 1%nat];
     expire_timeout_slots := 4;
     max_codeblocks := 8 |}.

(** * The FAPI downlink message builders

    A shallow embedding of [include/srsgnb/fapi/messages_builder.h]. A
    builder holds a reference to the PDU or message it fills and every setter
    returns the builder: a setter is a function from the referenced object to
    the object after the call, and a chain of setters is their composition.

    The message structures are declared in [srsgnb/fapi/messages.h], which is
    not part of the sources. The records below have the members that the
    builders read and write, under their path in the source
    ([pdu.bch_payload.bch_payload] is [bch_payload_bch_payload]); members
    of enumeration and integer types that the builders only store are
    numbers. Two widths are not visible in the builders and are parameters:
    [counter_bits], the width of an entry of [num_pdus_of_each_type], and
    [index_bits], the width of [ssb_pdu_index]. [set_maintenance_v3_tx_power_info]
    computes on [float] and is not embedded. *)

Module fapi.

Inductive dl_pdu_type : Type :=
  | PDCCH
  | PDSCH
  | CSI_RS
  | SSB.

#[global] Instance dl_pdu_type_eq_dec : EqDecision dl_pdu_type.
Proof. solve_decision. Defined.

Inductive bch_payload_type : Type :=
  | mac_full
  | phy_timing_info
  | phy_full.

Record dl_ssb_phy_mib_pdu : Type := mk_phy_mib_pdu {
  dmrs_typeA_position : N;
  pdcch_config_sib1 : N;
  cell_barred : N;
  intrafreq_reselection : N
}.

Record dl_ssb_bch_payload : Type := mk_bch_payload {
  bch_payload_bch_payload : N;
  bch_payload_phy_mib_pdu : dl_ssb_phy_mib_pdu
}.

Record dl_ssb_maintenance_v3 : Type := mk_maintenance_v3 {
  ssb_pdu_index : N;
  case_type : N;
  v3_scs : N;
  lmax : N;
  ss_pbch_block_power_scaling : Z;
  beta_pss_profile_sss : Z
}.

Record dl_ssb_pdu : Type := mk_ssb_pdu {
  phys_cell_id : N;
  beta_pss_profile_nr : N;
  ssb_block_index : N;
  ssb_subcarrier_offset : N;
  ssb_offset_pointA : N;
  bch_payload_flag : bch_payload_type;
  bch_payload : dl_ssb_bch_payload;
  ssb_maintenance_v3 : dl_ssb_maintenance_v3
}.

Record dl_pdcch_pdu : Type := mk_pdcch_pdu { pdcch_scs : N }.
Record dl_pdsch_pdu : Type := mk_pdsch_pdu { pdsch_scs : N }.
Record dl_csi_rs_pdu : Type := mk_csi_rs_pdu { csi_rs_scs : N }.

Record dl_tti_request_pdu : Type := mk_pdu {
  pdu_type : dl_pdu_type;
  pdcch_pdu : dl_pdcch_pdu;
  pdsch_pdu : dl_pdsch_pdu;
  csi_rs_pdu : dl_csi_rs_pdu;
  ssb_pdu : dl_ssb_pdu
}.

(** [num_pdus_of_each_type] is indexed by [static_cast<int>] of the PDU
    type: a counter for each type. *)
Record dl_tti_request_message : Type := mk_message {
  sfn : N;
  slot : N;
  num_groups : N;
  num_dl_types : N;
  num_pdus_of_each_type : dl_pdu_type → N;
  pdus : list dl_tti_request_pdu
}.

(** [std::numeric_limits<int16_t>::min()]. *)
Definition int16_min : Z := (-32768)%Z.

(** ** [dl_ssb_pdu_builder] *)

Module dl_ssb_pdu_builder.

(** The constructor, lines 16-20. *)
Definition init (pdu : dl_ssb_pdu) : dl_ssb_pdu :=
  let v3 := ssb_maintenance_v3 pdu in
  {| phys_cell_id := phys_cell_id pdu;
     beta_pss_profile_nr := beta_pss_profile_nr pdu;
     ssb_block_index := ssb_block_index pdu;
     ssb_subcarrier_offset := ssb_subcarrier_offset pdu;
     ssb_offset_pointA := ssb_offset_pointA pdu;
     bch_payload_flag := bch_payload_flag pdu;
     bch_payload := bch_payload pdu;
     ssb_maintenance_v3 :=
       {| ssb_pdu_index := ssb_pdu_index v3;
          case_type := case_type v3;
          v3_scs := v3_scs v3;
          lmax := lmax v3;
          ss_pbch_block_power_scaling := int16_min;
          beta_pss_profile_sss := int16_min |} |}.

Definition set_basic_parameters (phys_cell_id' beta_pss_profile_nr'
    ssb_block_index' ssb_subcarrier_offset' ssb_offset_pointA' : N)
    (pdu : dl_ssb_pdu) : dl_ssb_pdu :=
  {| phys_cell_id := phys_cell_id';
     beta_pss_profile_nr := beta_pss_profile_nr';
     ssb_block_index := ssb_block_index';
     ssb_subcarrier_offset := ssb_subcarrier_offset';
     ssb_offset_pointA := ssb_offset_pointA';
     bch_payload_flag := bch_payload_flag pdu;
     bch_payload := bch_payload pdu;
     ssb_maintenance_v3 := ssb_maintenance_v3 pdu |}.

Definition set_bch_payload (flag : bch_payload_type) (payload : dl_ssb_bch_payload)
    (pdu : dl_ssb_pdu) : dl_ssb_pdu :=
  {| phys_cell_id := phys_cell_id pdu;
     beta_pss_profile_nr := beta_pss_profile_nr pdu;
     ssb_block_index := ssb_block_index pdu;
     ssb_subcarrier_offset := ssb_subcarrier_offset pdu;
     ssb_offset_pointA := ssb_offset_pointA pdu;
     bch_payload_flag := flag;
     bch_payload := payload;
     ssb_maintenance_v3 := ssb_maintenance_v3 pdu |}.

(** Lines 44-51. *)
Definition set_bch_payload_mac_full (bch_payload' : N) (pdu : dl_ssb_pdu)
    : dl_ssb_pdu :=
  set_bch_payload mac_full
    {| bch_payload_bch_payload := bch_payload';
       bch_payload_phy_mib_pdu := bch_payload_phy_mib_pdu (bch_payload pdu) |}
    pdu.

(** Lines 58-65: [bch_payload & 0xFFFFFF]. *)
Definition set_bch_payload_phy_timing_info (bch_payload' : N) (pdu : dl_ssb_pdu)
    : dl_ssb_pdu :=
  set_bch_payload phy_timing_info
    {| bch_payload_bch_payload := N.land bch_payload' 0xFFFFFF;
       bch_payload_phy_mib_pdu := bch_payload_phy_mib_pdu (bch_payload pdu) |}
    pdu.

(** Lines 70-82. *)
Definition set_bch_payload_phy_full (dmrs_type_a_position pdcch_config_sib1'
    cell_barred' intra_freq_reselection : N) (pdu : dl_ssb_pdu) : dl_ssb_pdu :=
  set_bch_payload phy_full
    {| bch_payload_bch_payload := bch_payload_bch_payload (bch_payload pdu);
       bch_payload_phy_mib_pdu :=
         {| dmrs_typeA_position := dmrs_type_a_position;
            pdcch_config_sib1 := pdcch_config_sib1';
            cell_barred := cell_barred';
            intrafreq_reselection := intra_freq_reselection |} |}
    pdu.

(** Lines 87-95. *)
Definition set_maintenance_v3_basic_parameters (case_type' scs l_max : N)
    (pdu : dl_ssb_pdu) : dl_ssb_pdu :=
  let v3 := ssb_maintenance_v3 pdu in
  {| phys_cell_id := phys_cell_id pdu;
     beta_pss_profile_nr := beta_pss_profile_nr pdu;
     ssb_block_index := ssb_block_index pdu;
     ssb_subcarrier_offset := ssb_subcarrier_offset pdu;
     ssb_offset_pointA := ssb_offset_pointA pdu;
     bch_payload_flag := bch_payload_flag pdu;
     bch_payload := bch_payload pdu;
     ssb_maintenance_v3 :=
       {| ssb_pdu_index := ssb_pdu_index v3;
          case_type := case_type';
          v3_scs := scs;
          lmax := l_max;
          ss_pbch_block_power_scaling := ss_pbch_block_power_scaling v3;
          beta_pss_profile_sss := beta_pss_profile_sss v3 |} |}.

End dl_ssb_pdu_builder.

(** ** [dl_tti_request_message_builder] *)

Module dl_tti_request_message_builder.

Definition NUM_DL_TYPES : N := 5.

(** [++counter] on an unsigned counter of [counter_bits] bits. *)
Definition increment (counter_bits : N) (counter : N) : N :=
  (counter + 1) mod 2 ^ counter_bits.

Definition set_counter (counters : dl_pdu_type → N) (t : dl_pdu_type) (v : N)
    : dl_pdu_type → N :=
  λ t', if decide (t' = t) then v else counters t'.

(** The element that [msg.pdus.emplace_back()] appends: a value-initialised
    PDU. *)
Definition new_pdu : dl_tti_request_pdu :=
  {| pdu_type := PDCCH;
     pdcch_pdu := {| pdcch_scs := 0 |};
     pdsch_pdu := {| pdsch_scs := 0 |};
     csi_rs_pdu := {| csi_rs_scs := 0 |};
     ssb_pdu :=
       {| phys_cell_id := 0; beta_pss_profile_nr := 0; ssb_block_index := 0;
          ssb_subcarrier_offset := 0; ssb_offset_pointA := 0;
          bch_payload_flag := mac_full;
          bch_payload :=
            {| bch_payload_bch_payload := 0;
               bch_payload_phy_mib_pdu :=
                 {| dmrs_typeA_position := 0; pdcch_config_sib1 := 0;
                    cell_barred := 0; intrafreq_reselection := 0 |} |};
          ssb_maintenance_v3 :=
            {| ssb_pdu_index := 0; case_type := 0; v3_scs := 0; lmax := 0;
               ss_pbch_block_power_scaling := 0; beta_pss_profile_sss := 0 |} |} |}.

Definition set_pdu_type (t : dl_pdu_type) (pdu : dl_tti_request_pdu)
    : dl_tti_request_pdu :=
  {| pdu_type := t;
     pdcch_pdu := pdcch_pdu pdu;
     pdsch_pdu := pdsch_pdu pdu;
     csi_rs_pdu := csi_rs_pdu pdu;
     ssb_pdu := ssb_pdu pdu |}.

Definition set_ssb_pdu (ssb : dl_ssb_pdu) (pdu : dl_tti_request_pdu)
    : dl_tti_request_pdu :=
  {| pdu_type := pdu_type pdu;
     pdcch_pdu := pdcch_pdu pdu;
     pdsch_pdu := pdsch_pdu pdu;
     csi_rs_pdu := csi_rs_pdu pdu;
     ssb_pdu := ssb |}.

(** The constructor, line 198. *)
Definition init (msg : dl_tti_request_message) : dl_tti_request_message :=
  {| sfn := sfn msg;
     slot := slot msg;
     num_groups := num_groups msg;
     num_dl_types := NUM_DL_TYPES;
     num_pdus_of_each_type := num_pdus_of_each_type msg;
     pdus := pdus msg |}.

(** Lines 203-210. *)
Definition set_basic_parameters (sfn' slot' n_group : N)
    (msg : dl_tti_request_message) : dl_tti_request_message :=
  {| sfn := sfn';
     slot := slot';
     num_groups := n_group;
     num_dl_types := num_dl_types msg;
     num_pdus_of_each_type := num_pdus_of_each_type msg;
     pdus := pdus msg |}.

(** The three functions of lines 213-256 are one text with three PDU types:
    the counter of the type is incremented, a PDU is appended and its type
    is set. The builder returned refers to the appended PDU, the last of
    [pdus]. *)
Definition add_pdu (counter_bits : N) (t : dl_pdu_type)
    (msg : dl_tti_request_message) : dl_tti_request_message :=
  {| sfn := sfn msg;
     slot := slot msg;
     num_groups := num_groups msg;
     num_dl_types := num_dl_types msg;
     num_pdus_of_each_type :=
       set_counter (num_pdus_of_each_type msg) t
         (increment counter_bits (num_pdus_of_each_type msg t));
     pdus := pdus msg ++ [set_pdu_type t new_pdu] |}.

Definition add_pdcch_pdu (counter_bits : N) := add_pdu counter_bits PDCCH.
Definition add_pdsch_pdu (counter_bits : N) := add_pdu counter_bits PDSCH.
Definition add_csi_rs_pdu (counter_bits : N) := add_pdu counter_bits CSI_RS.

(** Lines 259-286. The index stored is the counter of SSB PDUs before the
    increment, converted to the [index_bits] bits of [ssb_pdu_index]. *)
Definition add_ssb_pdu (counter_bits index_bits : N)
    (phys_cell_id' beta_pss_profile_nr' ssb_block_index' ssb_subcarrier_offset'
     ssb_offset_pointA' : N)
    (msg : dl_tti_request_message) : dl_tti_request_message :=
  let pdu := new_pdu in
  let info := ssb_maintenance_v3 (ssb_pdu pdu) in
  let num_ssb_pdu := num_pdus_of_each_type msg SSB in
  let info :=
    {| ssb_pdu_index := num_ssb_pdu mod 2 ^ index_bits;
       case_type := case_type info;
       v3_scs := v3_scs info;
       lmax := lmax info;
       ss_pbch_block_power_scaling := ss_pbch_block_power_scaling info;
       beta_pss_profile_sss := beta_pss_profile_sss info |} in
  let ssb :=
    {| phys_cell_id := phys_cell_id (ssb_pdu pdu);
       beta_pss_profile_nr := beta_pss_profile_nr (ssb_pdu pdu);
       ssb_block_index := ssb_block_index (ssb_pdu pdu);
       ssb_subcarrier_offset := ssb_subcarrier_offset (ssb_pdu pdu);
       ssb_offset_pointA := ssb_offset_pointA (ssb_pdu pdu);
       bch_payload_flag := bch_payload_flag (ssb_pdu pdu);
       bch_payload := bch_payload (ssb_pdu pdu);
       ssb_maintenance_v3 := info |} in
  let pdu := set_pdu_type SSB (set_ssb_pdu ssb pdu) in
  let ssb :=
    dl_ssb_pdu_builder.set_basic_parameters phys_cell_id' beta_pss_profile_nr'
      ssb_block_index' ssb_subcarrier_offset' ssb_offset_pointA'
      (dl_ssb_pdu_builder.init (ssb_pdu pdu)) in
  {| sfn := sfn msg;
     slot := slot msg;
     num_groups := num_groups msg;
     num_dl_types := num_dl_types msg;
     num_pdus_of_each_type :=
       set_counter (num_pdus_of_each_type msg) SSB (increment counter_bits num_ssb_pdu);
     pdus := pdus msg ++ [set_ssb_pdu ssb pdu] |}.

(** The calls on a message builder. *)
Inductive call : Type :=
  | call_set_basic_parameters (sfn' slot' n_group : N)
  | call_add_pdcch_pdu
  | call_add_pdsch_pdu
  | call_add_csi_rs_pdu
  | call_add_ssb_pdu (phys_cell_id' beta_pss_profile_nr' ssb_block_index'
                      ssb_subcarrier_offset' ssb_offset_pointA' : N).

Definition do_call (counter_bits index_bits : N) (c : call)
    (msg : dl_tti_request_message) : dl_tti_request_message :=
  match c with
  | call_set_basic_parameters sfn' slot' n_group =>
      set_basic_parameters sfn' slot' n_group msg
  | call_add_pdcch_pdu => add_pdcch_pdu counter_bits msg
  | call_add_pdsch_pdu => add_pdsch_pdu counter_bits msg
  | call_add_csi_rs_pdu => add_csi_rs_pdu counter_bits msg
  | call_add_ssb_pdu a b c d e => add_ssb_pdu counter_bits index_bits a b c d e msg
  end.

Definition do_calls (counter_bits index_bits : N) (cs : list call)
    (msg : dl_tti_request_message) : dl_tti_request_message :=
  foldl (λ m c, do_call counter_bits index_bits c m) msg cs.

(** The calls that append a PDU. *)
Definition is_add (c : call) : bool :=
  match c with
  | call_set_basic_parameters _ _ _ => false
  | _ => true
  end.

(** The number of PDUs of type [t] in a list of PDUs. *)
Definition count_type (t : dl_pdu_type) (l : list dl_tti_request_pdu) : nat :=
  length (filter (λ pdu, pdu_type pdu = t) l).

(** Each counter is the number of PDUs of its type, as far as its width
    goes. *)
Definition counters_agree (counter_bits : N) (msg : dl_tti_request_message) : Prop :=
  ∀ t, num_pdus_of_each_type msg t =
       N.of_nat (count_type t (pdus msg)) mod 2 ^ counter_bits.

(** Each SSB PDU carries the number of SSB PDUs before it in the message,
    as far as the widths go. *)
Definition ssb_indexed (counter_bits index_bits : N)
    (l : list dl_tti_request_pdu) : Prop :=
  ∀ pos pdu, l !! pos = Some pdu → pdu_type pdu = SSB →
             ssb_pdu_index (ssb_maintenance_v3 (ssb_pdu pdu)) =
               (N.of_nat (count_type SSB (take pos l)) mod 2 ^ counter_bits)
                 mod 2 ^ index_bits.

(** A message with no PDU and all counters zero. *)
Definition empty_message : dl_tti_request_message :=
  {| sfn := 0; slot := 0; num_groups := 0; num_dl_types := 0;
     num_pdus_of_each_type := λ _, 0;
     pdus := [] |}.

End dl_tti_request_message_builder.

End fapi.

(** * Properties *)

(** ** Well-formed pools *)

Lemma pool_wf_NoDup p : pool_wf p → NoDup (available_buffers p ++ reserved_buffers p).
Proof. unfold pool_wf. intros ->. apply NoDup_seq. Qed.

Lemma pool_wf_elem p i :
  pool_wf p → (i ∈ available_buffers p ∨ i ∈ reserved_buffers p) ↔ (i < capacity p)%nat.
Proof.
  unfold pool_wf. intros Hwf. rewrite <- elem_of_app, Hwf, elem_of_seq. lia.
Qed.

Lemma pool_wf_length p :
  pool_wf p →
  (length (available_buffers p) + length (reserved_buffers p))%nat = capacity p.
Proof.
  unfold pool_wf. intros Hwf. rewrite <- length_app, Hwf. apply length_seq.
Qed.

Lemma pool_wf_disjoint p i :
  pool_wf p → i ∈ available_buffers p → i ∉ reserved_buffers p.
Proof.
  intros Hwf. apply pool_wf_NoDup, NoDup_app in Hwf as (_ & Hd & _). apply Hd.
Qed.

Lemma pool_wf_lookup p i :
  pool_wf p → i ∈ available_buffers p ∨ i ∈ reserved_buffers p →
  is_Some (buffer_pool p !! i).
Proof.
  intros Hwf Hi. apply lookup_lt_is_Some. by apply pool_wf_elem in Hi.
Qed.

Lemma create_tx_buffer_pool_wf config : pool_wf (create_tx_buffer_pool config).
Proof.
  unfold pool_wf, capacity. simpl. by rewrite length_replicate, app_nil_r.
Qed.

Lemma set_buffer_id p i b : buffer_pool p !! i = Some b → set_buffer p i b = p.
Proof.
  intros Hb. destruct p as [bufs av rs T M]. unfold set_buffer. simpl in *.
  by rewrite list_insert_id.
Qed.

Lemma set_buffer_wf p i b : pool_wf p → pool_wf (set_buffer p i b).
Proof.
  unfold pool_wf, capacity, set_buffer. simpl. by rewrite length_insert.
Qed.

(** ** The buffer *)

Lemma buffer_reserve_fail M id e n b :
  M < n → tx_buffer_impl.reserve M id e n b = (insufficient_capacity, b).
Proof.
  intros H. unfold tx_buffer_impl.reserve.
  destruct (N.ltb_spec M n); [done | lia].
Qed.

Lemma buffer_reserve_ok M id e n b :
  n ≤ M →
  tx_buffer_impl.reserve M id e n b =
    (successful, tx_buffer_impl.mk tx_buffer_impl.reserved id e).
Proof.
  intros H. unfold tx_buffer_impl.reserve.
  destruct (N.ltb_spec M n); [lia | done].
Qed.

Lemma buffer_run_slot_expired slot b :
  tx_buffer_impl.reservation_expire_slot b ≤ slot →
  tx_buffer_impl.run_slot slot b =
    (true, tx_buffer_impl.mk tx_buffer_impl.free null_identifier
             (tx_buffer_impl.reservation_expire_slot b)).
Proof.
  intros H. unfold tx_buffer_impl.run_slot, tx_buffer_impl.advance_slot.
  destruct (N.leb_spec (tx_buffer_impl.reservation_expire_slot b) slot); [done | lia].
Qed.

Lemma buffer_run_slot_kept slot b :
  slot < tx_buffer_impl.reservation_expire_slot b →
  tx_buffer_impl.run_slot slot b = (false, b).
Proof.
  intros H. unfold tx_buffer_impl.run_slot, tx_buffer_impl.advance_slot.
  destruct (N.leb_spec (tx_buffer_impl.reservation_expire_slot b) slot); [lia | done].
Qed.

Lemma buffer_run_slot_flag slot b :
  (tx_buffer_impl.run_slot slot b).1 =
    (tx_buffer_impl.reservation_expire_slot b <=? slot).
Proof.
  unfold tx_buffer_impl.run_slot, tx_buffer_impl.advance_slot.
  by destruct (tx_buffer_impl.reservation_expire_slot b <=? slot).
Qed.

Lemma buffer_run_slot_expire slot b :
  tx_buffer_impl.reservation_expire_slot (tx_buffer_impl.run_slot slot b).2 =
    tx_buffer_impl.reservation_expire_slot b.
Proof.
  unfold tx_buffer_impl.run_slot, tx_buffer_impl.advance_slot.
  by destruct (tx_buffer_impl.reservation_expire_slot b <=? slot).
Qed.

Lemma buffer_run_slot_idemp slot b :
  (tx_buffer_impl.run_slot slot (tx_buffer_impl.run_slot slot b).2).2 =
    (tx_buffer_impl.run_slot slot b).2.
Proof.
  unfold tx_buffer_impl.run_slot, tx_buffer_impl.advance_slot.
  destruct (tx_buffer_impl.reservation_expire_slot b <=? slot) eqn:E; simpl;
    by rewrite E.
Qed.

Lemma match_id_true b id :
  tx_buffer_impl.match_id b id = true ↔
  tx_buffer_impl.current_state b = tx_buffer_impl.reserved ∧
  tx_buffer_impl.reservation_id b = id.
Proof.
  unfold tx_buffer_impl.match_id.
  rewrite andb_true_iff, !bool_decide_eq_true. done.
Qed.

(** ** The search of [reserve_buffer] *)

(** In range, the search ends: either no buffer of the queue matches, or it
    returns the first index of the queue whose buffer matches. *)
Lemma find_reserved_spec bufs id q :
  (∀ i, i ∈ q → (i < length bufs)%nat) →
  (find_reserved bufs id q = Some None ∧
   ∀ i b, i ∈ q → bufs !! i = Some b → tx_buffer_impl.match_id b id = false)
  ∨
  (∃ i b q1 q2,
     find_reserved bufs id q = Some (Some i) ∧ q = q1 ++ i :: q2 ∧
     bufs !! i = Some b ∧ tx_buffer_impl.match_id b id = true ∧
     ∀ k bk, k ∈ q1 → bufs !! k = Some bk → tx_buffer_impl.match_id bk id = false).
Proof.
  induction q as [|x q IH]; intros Hrange.
  - left. split; [done|]. intros i b Hi. by apply not_elem_of_nil in Hi.
  - destruct (lookup_lt_is_Some_2 bufs x) as [b Hb].
    { apply Hrange. by left. }
    simpl. rewrite Hb. simpl.
    destruct (tx_buffer_impl.match_id b id) eqn:Hm.
    + right. exists x, b, [], q. repeat split; try done.
      intros k bk Hk. by apply not_elem_of_nil in Hk.
    + destruct IH as [[Hf Hno] | (i & bi & q1 & q2 & Hf & -> & Hbi & Hmi & Hfirst)].
      { intros i Hi. apply Hrange. by right. }
      * left. split; [done|]. intros i bi Hi Hbi.
        apply elem_of_cons in Hi as [-> | Hi]; [congruence | by eapply Hno].
      * right. exists i, bi, (x :: q1), q2. repeat split; try done.
        intros k bk Hk Hbk.
        apply elem_of_cons in Hk as [-> | Hk]; [congruence | by eapply Hfirst].
Qed.

(** ** The reservation of an available buffer *)

Lemma reserve_available_empty p id e n :
  available_buffers p = [] → reserve_available p id e n = Some (p, None).
Proof. unfold reserve_available. by intros ->. Qed.

Lemma reserve_available_fail p id e n i q b :
  available_buffers p = i :: q → buffer_pool p !! i = Some b →
  (tx_buffer_impl.reserve (max_codeblocks p) id e n b).1 ≠ successful →
  reserve_available p id e n =
    Some (set_buffer p i (tx_buffer_impl.reserve (max_codeblocks p) id e n b).2, None).
Proof.
  intros Hav Hb Hst. unfold reserve_available. rewrite Hav. simpl. rewrite Hb. simpl.
  destruct (tx_buffer_impl.reserve _ _ _ _ _) as [st b']. simpl in *.
  by rewrite bool_decide_eq_true_2.
Qed.

Lemma reserve_available_spec p id e n i q :
  pool_wf p → available_buffers p = i :: q →
  ∃ b, buffer_pool p !! i = Some b ∧
       reserve_available p id e n =
         if max_codeblocks p <? n then Some (p, None)
         else Some ({| buffer_pool :=
                         <[i := tx_buffer_impl.mk tx_buffer_impl.reserved id e]>
                           (buffer_pool p);
                       available_buffers := q;
                       reserved_buffers := reserved_buffers p ++ [i];
                       expire_timeout_slots := expire_timeout_slots p;
                       max_codeblocks := max_codeblocks p |}, Some i).
Proof.
  intros Hwf Hav.
  destruct (pool_wf_lookup p i Hwf) as [b Hb].
  { left. rewrite Hav. by left. }
  exists b. split; [done|].
  unfold reserve_available. rewrite Hav. simpl. rewrite Hb. simpl.
  unfold tx_buffer_impl.reserve.
  destruct (max_codeblocks p <? n).
  - rewrite bool_decide_eq_true_2 by done. by rewrite set_buffer_id.
  - rewrite bool_decide_eq_false_2; [done|]. intros H. by apply H.
Qed.

(** ** [reserve_buffer] on a well-formed pool *)

Lemma reserve_buffer_spec p slot id n :
  pool_wf p →
  (∃ i b q1 q2,
     reserved_buffers p = q1 ++ i :: q2 ∧ buffer_pool p !! i = Some b ∧
     tx_buffer_impl.match_id b id = true ∧
     (∀ k bk, k ∈ q1 → buffer_pool p !! k = Some bk →
              tx_buffer_impl.match_id bk id = false) ∧
     reserve_buffer p slot id n =
       if max_codeblocks p <? n then Some (p, None)
       else Some (set_buffer p i
                    (tx_buffer_impl.mk tx_buffer_impl.reserved id
                       (slot + expire_timeout_slots p)), Some i))
  ∨
  ((∀ i b, i ∈ reserved_buffers p → buffer_pool p !! i = Some b →
           tx_buffer_impl.match_id b id = false) ∧
   reserve_buffer p slot id n =
     reserve_available p id (slot + expire_timeout_slots p) n).
Proof.
  intros Hwf.
  destruct (find_reserved_spec (buffer_pool p) id (reserved_buffers p))
    as [[Hf Hno] | (i & b & q1 & q2 & Hf & Hq & Hb & Hm & Hfirst)].
  { intros i Hi. apply (pool_wf_elem p i Hwf). by right. }
  - right. split; [done|]. unfold reserve_buffer. by rewrite Hf.
  - left. exists i, b, q1, q2. repeat split; try done.
    unfold reserve_buffer. rewrite Hf. simpl. rewrite Hb. simpl.
    unfold tx_buffer_impl.reserve.
    destruct (max_codeblocks p <? n).
    + rewrite bool_decide_eq_true_2 by done. by rewrite set_buffer_id.
    + rewrite bool_decide_eq_false_2; [done|]. intros H. by apply H.
Qed.

(** ** The sweep of [run_slot] *)

Lemma expired_at_insert slot bufs x b i :
  bufs !! x = Some b →
  expired_at slot (<[x := (tx_buffer_impl.run_slot slot b).2]> bufs) i =
    expired_at slot bufs i.
Proof.
  intros Hb. unfold expired_at. destruct (decide (x = i)) as [<- | Hne].
  - rewrite list_lookup_insert_eq by (by apply lookup_lt_is_Some).
    by rewrite Hb, buffer_run_slot_expire.
  - by rewrite list_lookup_insert_ne.
Qed.

Lemma expired_at_flag slot bufs x b :
  bufs !! x = Some b → expired_at slot bufs x = (tx_buffer_impl.run_slot slot b).1.
Proof. intros Hb. unfold expired_at. by rewrite Hb, buffer_run_slot_flag. Qed.

(** The loop over the first [length q1] entries of the reserved queue: it
    calls [run_slot] on the buffers of [q1], in order, and on nothing else;
    the expired indices go to the back of the available queue and the others
    to the back of the reserved queue. *)
Lemma run_slot_loop_spec slot T M q1 :
  ∀ bufs avail q2,
  (∀ i, i ∈ q1 → (i < length bufs)%nat) →
  ∃ bufs',
    run_slot_loop (length q1) slot (mk_pool bufs avail (q1 ++ q2) T M) =
      Some (mk_pool bufs'
              (avail ++ filter (λ i, expired_at slot bufs i = true) q1)
              (q2 ++ filter (λ i, ¬ expired_at slot bufs i = true) q1) T M,
            q1) ∧
    length bufs' = length bufs ∧
    ∀ i b, bufs !! i = Some b →
           bufs' !! i =
             Some (if decide (i ∈ q1) then (tx_buffer_impl.run_slot slot b).2 else b).
Proof.
  induction q1 as [|x q IH]; intros bufs avail q2 Hrange.
  - exists bufs. simpl. rewrite !filter_nil, !app_nil_r. repeat split; try done.
  - destruct (lookup_lt_is_Some_2 bufs x) as [b Hb].
    { apply Hrange. by left. }
    assert (Hrange' : ∀ i, i ∈ q →
              (i < length (<[x := (tx_buffer_impl.run_slot slot b).2]> bufs))%nat).
    { intros i Hi. rewrite length_insert. apply Hrange. by right. }
    assert (Hf1 : filter (λ i, expired_at slot
                 (<[x := (tx_buffer_impl.run_slot slot b).2]> bufs) i = true) q =
              filter (λ i, expired_at slot bufs i = true) q).
    { apply list_filter_iff. intros i.
      by rewrite (expired_at_insert slot bufs x b i Hb). }
    assert (Hf2 : filter (λ i, ¬ expired_at slot
                 (<[x := (tx_buffer_impl.run_slot slot b).2]> bufs) i = true) q =
              filter (λ i, ¬ expired_at slot bufs i = true) q).
    { apply list_filter_iff. intros i.
      by rewrite (expired_at_insert slot bufs x b i Hb). }
    pose proof (expired_at_flag slot bufs x b Hb) as Hflag.
    cbn [length run_slot_loop]. simpl.
    rewrite Hb. simpl.
    destruct (tx_buffer_impl.run_slot slot b) as [av b'] eqn:Hrun.
    simpl in Hrange', Hf1, Hf2, Hflag.
    destruct av.
    + destruct (IH (<[x := b']> bufs) (index_queue.push x avail) q2 Hrange')
        as (bufs' & Hloop & Hlen & Hbufs).
      exists bufs'. rewrite Hloop. simpl.
      rewrite Hf1, Hf2.
      rewrite filter_cons_True by done.
      rewrite filter_cons_False by (intros H; by apply H).
      unfold index_queue.push. rewrite <- app_assoc. simpl.
      split; [done|]. split; [by rewrite Hlen, length_insert|].
      intros i bi Hbi.
      destruct (decide (i = x)) as [-> | Hne].
      * rewrite decide_True by (by left).
        assert (bi = b) as -> by congruence.
        rewrite (Hbufs x b').
        2:{ apply list_lookup_insert_eq. by apply lookup_lt_is_Some. }
        pose proof (buffer_run_slot_idemp slot b) as Hid. rewrite Hrun in Hid.
        simpl in Hid. rewrite Hid, Hrun. simpl. by case_decide.
      * rewrite (Hbufs i bi) by (by rewrite list_lookup_insert_ne).
        f_equal. apply decide_ext. rewrite elem_of_cons.
        split; [by right | by intros [? | ?]].
    + unfold index_queue.push. rewrite <- app_assoc.
      destruct (IH (<[x := b']> bufs) avail (q2 ++ [x]) Hrange')
        as (bufs' & Hloop & Hlen & Hbufs).
      exists bufs'. rewrite Hloop. simpl.
      rewrite Hf1, Hf2.
      rewrite filter_cons_False by (by rewrite Hflag).
      rewrite filter_cons_True by (by rewrite Hflag).
      rewrite <- app_assoc. simpl.
      split; [done|]. split; [by rewrite Hlen, length_insert|].
      intros i bi Hbi.
      destruct (decide (i = x)) as [-> | Hne].
      * rewrite decide_True by (by left).
        assert (bi = b) as -> by congruence.
        rewrite (Hbufs x b').
        2:{ apply list_lookup_insert_eq. by apply lookup_lt_is_Some. }
        pose proof (buffer_run_slot_idemp slot b) as Hid. rewrite Hrun in Hid.
        simpl in Hid. rewrite Hid, Hrun. simpl. by case_decide.
      * rewrite (Hbufs i bi) by (by rewrite list_lookup_insert_ne).
        f_equal. apply decide_ext. rewrite elem_of_cons.
        split; [by right | by intros [? | ?]].
Qed.

Lemma run_slot_visit_spec slot p :
  pool_wf p →
  ∃ bufs',
    run_slot_visit slot p =
      Some (mk_pool bufs'
              (available_buffers p ++
                 filter (λ i, expired_at slot (buffer_pool p) i = true)
                   (reserved_buffers p))
              (filter (λ i, ¬ expired_at slot (buffer_pool p) i = true)
                 (reserved_buffers p))
              (expire_timeout_slots p) (max_codeblocks p),
            reserved_buffers p) ∧
    length bufs' = length (buffer_pool p) ∧
    ∀ i b, buffer_pool p !! i = Some b →
           bufs' !! i =
             Some (if decide (i ∈ reserved_buffers p)
                   then (tx_buffer_impl.run_slot slot b).2 else b).
Proof.
  intros Hwf.
  assert (Hrange : ∀ i, i ∈ reserved_buffers p → (i < length (buffer_pool p))%nat).
  { intros i Hi. apply (pool_wf_elem p i Hwf). by right. }
  destruct p as [bufs av rs T M]. simpl in *.
  destruct (run_slot_loop_spec slot T M rs bufs av [] Hrange) as (bufs' & Hloop & Hrest).
  exists bufs'. split; [|done].
  unfold run_slot_visit, index_queue.size. simpl.
  rewrite app_nil_r in Hloop. by rewrite Hloop.
Qed.

Lemma run_slot_wf slot p :
  pool_wf p →
  ∃ p', run_slot slot p = Some p' ∧ pool_wf p' ∧ capacity p' = capacity p ∧
        expire_timeout_slots p' = expire_timeout_slots p ∧
        max_codeblocks p' = max_codeblocks p.
Proof.
  intros Hwf.
  destruct (run_slot_visit_spec slot p Hwf) as (bufs' & Hrun & Hlen & _).
  eexists. unfold run_slot. rewrite Hrun. simpl. split; [done|].
  unfold pool_wf, capacity in *. simpl. rewrite Hlen, <- Hwf, <- app_assoc.
  by rewrite filter_app_complement.
Qed.

(** ** One call on a well-formed pool *)

Lemma reserve_available_wf p id e n :
  pool_wf p →
  ∃ p' h, reserve_available p id e n = Some (p', h) ∧ pool_wf p' ∧
          capacity p' = capacity p ∧
          expire_timeout_slots p' = expire_timeout_slots p ∧
          max_codeblocks p' = max_codeblocks p.
Proof.
  intros Hwf. destruct (available_buffers p) as [|i q] eqn:Hav.
  - exists p, None. by rewrite reserve_available_empty.
  - destruct (reserve_available_spec p id e n i q Hwf Hav) as (b & Hb & ->).
    destruct (max_codeblocks p <? n); [by exists p, None|].
    eexists _, _. split; [done|].
    unfold pool_wf, capacity in *. simpl. rewrite length_insert. split; [|done].
    rewrite <- Hwf, Hav, app_assoc, <- Permutation_cons_append. done.
Qed.

Lemma reserve_buffer_wf p slot id n :
  pool_wf p →
  ∃ p' h, reserve_buffer p slot id n = Some (p', h) ∧ pool_wf p' ∧
          capacity p' = capacity p ∧
          expire_timeout_slots p' = expire_timeout_slots p ∧
          max_codeblocks p' = max_codeblocks p.
Proof.
  intros Hwf.
  destruct (reserve_buffer_spec p slot id n Hwf)
    as [(i & b & q1 & q2 & Hq & Hb & Hm & Hfirst & ->) | [Hno ->]].
  - destruct (max_codeblocks p <? n); [by exists p, None|].
    eexists _, _. split; [done|]. split; [by apply set_buffer_wf|].
    unfold capacity, set_buffer. simpl. by rewrite length_insert.
  - by apply reserve_available_wf.
Qed.

Lemma do_call_wf c p :
  pool_wf p →
  ∃ p' h, do_call c p = Some (p', h) ∧ pool_wf p' ∧ capacity p' = capacity p ∧
          expire_timeout_slots p' = expire_timeout_slots p ∧
          max_codeblocks p' = max_codeblocks p.
Proof.
  intros Hwf. destruct c as [slot id n | slot n | slot]; simpl.
  - by apply reserve_buffer_wf.
  - by apply reserve_available_wf.
  - destruct (run_slot_wf slot p Hwf) as (p' & -> & Hrest).
    by exists p', None.
Qed.

Lemma do_calls_wf cs :
  ∀ p, pool_wf p →
  ∃ p' hs, do_calls cs p = Some (p', hs) ∧ pool_wf p' ∧ capacity p' = capacity p ∧
           expire_timeout_slots p' = expire_timeout_slots p ∧
           max_codeblocks p' = max_codeblocks p.
Proof.
  induction cs as [|c cs IH]; intros p Hwf.
  - by exists p, [].
  - destruct (do_call_wf c p Hwf) as (p1 & h & Hc & Hwf1 & Hcap1 & HT1 & HM1).
    destruct (IH p1 Hwf1) as (p2 & hs & Hcs & Hwf2 & Hcap2 & HT2 & HM2).
    exists p2, (h :: hs). simpl. rewrite Hc. simpl. rewrite Hcs. simpl.
    repeat split; try done; congruence.
Qed.

(** ** What a call leaves alone *)

Lemma reserve_available_keeps_reserved p id' e n i id E p' h :
  pool_wf p → reserved_until p i id E →
  reserve_available p id' e n = Some (p', h) → h ≠ Some i →
  reserved_until p' i id E.
Proof.
  intros Hwf [Hi Hb] Hres Hh. destruct (available_buffers p) as [|j q] eqn:Hav.
  - rewrite reserve_available_empty in Hres by done. by simplify_eq.
  - destruct (reserve_available_spec p id' e n j q Hwf Hav) as (bj & Hbj & Heq).
    rewrite Heq in Hres. destruct (max_codeblocks p <? n); simplify_eq; [done|].
    split; simpl.
    + apply elem_of_app. by left.
    + rewrite list_lookup_insert_ne; [done | congruence].
Qed.

Lemma reserve_available_keeps_free p id' e n i p' h :
  pool_wf p → is_free p i →
  reserve_available p id' e n = Some (p', h) → h ≠ Some i →
  is_free p' i.
Proof.
  intros Hwf (Hi & Hni & Hb) Hres Hh. destruct (available_buffers p) as [|j q] eqn:Hav.
  - by apply not_elem_of_nil in Hi.
  - destruct (reserve_available_spec p id' e n j q Hwf Hav) as (bj & Hbj & Heq).
    rewrite Heq in Hres. destruct (max_codeblocks p <? n); simplify_eq.
    { unfold is_free. by rewrite Hav. }
    assert (j ≠ i) by congruence.
    repeat split; simpl.
    + apply elem_of_cons in Hi as [-> | Hi]; done.
    + rewrite elem_of_app, list_elem_of_singleton. by intros [? | ?].
    + by rewrite list_lookup_insert_ne.
Qed.

Lemma run_slot_keeps_reserved slot p i id E p' :
  pool_wf p → reserved_until p i id E → slot < E →
  run_slot slot p = Some p' → reserved_until p' i id E.
Proof.
  intros Hwf [Hi Hb] Hlt Hrun.
  destruct (run_slot_visit_spec slot p Hwf) as (bufs' & Heq & _ & Hbufs).
  unfold run_slot in Hrun. rewrite Heq in Hrun. simpl in Hrun. simplify_eq.
  split; simpl.
  - apply list_elem_of_filter. split; [|done].
    unfold expired_at. rewrite Hb. simpl.
    destruct (N.leb_spec E slot); [lia | done].
  - rewrite (Hbufs i _ Hb), decide_True by done.
    by rewrite buffer_run_slot_kept.
Qed.

Lemma run_slot_keeps_free slot p i p' :
  pool_wf p → is_free p i → run_slot slot p = Some p' → is_free p' i.
Proof.
  intros Hwf (Hi & Hni & b & Hb & Hst & Hid) Hrun.
  destruct (run_slot_visit_spec slot p Hwf) as (bufs' & Heq & _ & Hbufs).
  unfold run_slot in Hrun. rewrite Heq in Hrun. simpl in Hrun. simplify_eq.
  repeat split; simpl.
  - apply elem_of_app. by left.
  - rewrite list_elem_of_filter. by intros [_ ?].
  - exists b. by rewrite (Hbufs i _ Hb), decide_False.
Qed.

Lemma run_slot_frees slot p i id E p' :
  pool_wf p → reserved_until p i id E → E ≤ slot →
  run_slot slot p = Some p' → is_free p' i.
Proof.
  intros Hwf [Hi Hb] Hle Hrun.
  destruct (run_slot_visit_spec slot p Hwf) as (bufs' & Heq & _ & Hbufs).
  unfold run_slot in Hrun. rewrite Heq in Hrun. simpl in Hrun. simplify_eq.
  assert (Hexp : expired_at slot (buffer_pool p) i = true).
  { unfold expired_at. rewrite Hb. simpl. by apply N.leb_le. }
  repeat split; simpl.
  - apply elem_of_app. right. by apply list_elem_of_filter.
  - rewrite list_elem_of_filter. by intros [? _].
  - eexists. rewrite (Hbufs i _ Hb), decide_True by done.
    by rewrite buffer_run_slot_expired.
Qed.

Lemma do_call_keeps_reserved c p i id E p' h :
  pool_wf p → reserved_until p i id E →
  do_call c p = Some (p', h) → h ≠ Some i →
  (∀ s, c = call_run_slot s → s < E) →
  reserved_until p' i id E.
Proof.
  intros Hwf Hres Hcall Hh Hslot.
  destruct c as [slot id' n | slot n | slot]; simpl in Hcall.
  - destruct (reserve_buffer_spec p slot id' n Hwf)
      as [(j & b & q1 & q2 & Hq & Hb & Hm & Hfirst & Heq) | [Hno Heq]];
      rewrite Heq in Hcall.
    + destruct (max_codeblocks p <? n); simplify_eq; [done|].
      destruct Hres as [Hi Hbi]. split; [done|]. simpl.
      rewrite list_lookup_insert_ne; [done | congruence].
    + by eapply reserve_available_keeps_reserved.
  - by eapply reserve_available_keeps_reserved.
  - destruct (run_slot slot p) as [p1|] eqn:Hrun; simpl in Hcall; simplify_eq.
    apply (run_slot_keeps_reserved slot p i id E); try done. by apply Hslot.
Qed.

Lemma do_call_keeps_free c p i p' h :
  pool_wf p → is_free p i → do_call c p = Some (p', h) → h ≠ Some i →
  is_free p' i.
Proof.
  intros Hwf Hfree Hcall Hh.
  destruct c as [slot id' n | slot n | slot]; simpl in Hcall.
  - destruct (reserve_buffer_spec p slot id' n Hwf)
      as [(j & b & q1 & q2 & Hq & Hb & Hm & Hfirst & Heq) | [Hno Heq]];
      rewrite Heq in Hcall.
    + destruct (max_codeblocks p <? n); simplify_eq; [done|].
      destruct Hfree as (Hi & Hni & bi & Hbi & Hrest).
      repeat split; try done. exists bi. split; [|done]. simpl.
      rewrite list_lookup_insert_ne; [done|]. intros ->. apply Hni.
      rewrite Hq. apply elem_of_app. right. by left.
    + by eapply reserve_available_keeps_free.
  - by eapply reserve_available_keeps_free.
  - destruct (run_slot slot p) as [p1|] eqn:Hrun; simpl in Hcall; simplify_eq.
    by eapply run_slot_keeps_free.
Qed.

(** ** Sequences of calls and one reservation *)

Lemma do_calls_keep_reserved i id E cs :
  ∀ p p' hs,
  pool_wf p → reserved_until p i id E →
  do_calls cs p = Some (p', hs) → not_handed_out i hs → slots_before E cs →
  pool_wf p' ∧ reserved_until p' i id E.
Proof.
  unfold not_handed_out, slots_before.
  induction cs as [|c cs IH]; intros p p' hs Hwf Hres Hrun Hhs Hslots.
  - simpl in Hrun. by simplify_eq.
  - destruct (do_call_wf c p Hwf) as (p1 & h & Hc & Hwf1 & _).
    simpl in Hrun. rewrite Hc in Hrun. simpl in Hrun.
    destruct (do_calls cs p1) as [[p2 hs2]|] eqn:Hcs; simpl in Hrun; simplify_eq.
    apply not_elem_of_cons in Hhs as [Hh Hhs2].
    assert (Hh' : h ≠ Some i) by congruence.
    apply (IH p1 p' hs2); try done.
    + apply (do_call_keeps_reserved c p i id E p1 h); try done.
      intros s ->. apply Hslots. by left.
    + intros s Hs. apply Hslots. by right.
Qed.

Lemma do_calls_reserved_or_free i id E cs :
  ∀ p p' hs,
  pool_wf p → reserved_until p i id E ∨ is_free p i →
  do_calls cs p = Some (p', hs) → not_handed_out i hs →
  pool_wf p' ∧ (reserved_until p' i id E ∨ is_free p' i).
Proof.
  unfold not_handed_out.
  induction cs as [|c cs IH]; intros p p' hs Hwf Hst Hrun Hhs.
  - simpl in Hrun. by simplify_eq.
  - destruct (do_call_wf c p Hwf) as (p1 & h & Hc & Hwf1 & _).
    simpl in Hrun. rewrite Hc in Hrun. simpl in Hrun.
    destruct (do_calls cs p1) as [[p2 hs2]|] eqn:Hcs; simpl in Hrun; simplify_eq.
    apply not_elem_of_cons in Hhs as [Hh Hhs2].
    assert (Hh' : h ≠ Some i) by congruence.
    apply (IH p1 p' hs2); try done.
    destruct Hst as [Hres | Hfree].
    + destruct c as [slot id' n | slot n | slot].
      * left. by apply (do_call_keeps_reserved (call_reserve slot id' n) p i id E p1 h).
      * left. by apply (do_call_keeps_reserved (call_reserve_no_id slot n) p i id E p1 h).
      * simpl in Hc. destruct (run_slot slot p) as [p1'|] eqn:Hslot;
          simpl in Hc; simplify_eq.
        destruct (N.lt_ge_cases slot E).
        -- left. by apply (run_slot_keeps_reserved slot p).
        -- right. by apply (run_slot_frees slot p i id E).
    + right. by apply (do_call_keeps_free c p i p1 h).
Qed.

Lemma reserve_available_handle p id e n p' i :
  pool_wf p → reserve_available p id e n = Some (p', Some i) →
  index_queue.top (available_buffers p) = Some i ∧ reserved_until p' i id e.
Proof.
  intros Hwf Hres. destruct (available_buffers p) as [|j q] eqn:Hav.
  - rewrite reserve_available_empty in Hres by done. by simplify_eq.
  - destruct (reserve_available_spec p id e n j q Hwf Hav) as (bj & Hbj & Heq).
    rewrite Heq in Hres. destruct (max_codeblocks p <? n); simplify_eq.
    split; [done|]. split; simpl.
    + apply elem_of_app. right. by left.
    + apply list_lookup_insert_eq. by apply lookup_lt_is_Some.
Qed.

Lemma reserve_buffer_handle p slot id n p' i :
  pool_wf p → reserve_buffer p slot id n = Some (p', Some i) →
  reserved_until p' i id (slot + expire_timeout_slots p).
Proof.
  intros Hwf Hres.
  destruct (reserve_buffer_spec p slot id n Hwf)
    as [(j & b & q1 & q2 & Hq & Hb & Hm & Hfirst & Heq) | [Hno Heq]];
    rewrite Heq in Hres.
  - destruct (max_codeblocks p <? n); simplify_eq. split; simpl.
    + rewrite Hq. apply elem_of_app. right. by left.
    + apply list_lookup_insert_eq. by apply lookup_lt_is_Some.
  - by apply (reserve_available_handle p id _ n p' i).
Qed.

(** ** One reserved buffer for an identifier *)

Lemma reserve_available_consistent p id e n p' h :
  pool_wf p → reserved_consistent p →
  (id = null_identifier ∨
   ∀ i b, i ∈ reserved_buffers p → buffer_pool p !! i = Some b →
          tx_buffer_impl.match_id b id = false) →
  reserve_available p id e n = Some (p', h) →
  reserved_consistent p'.
Proof.
  intros Hwf [Hst Huniq] Hid Hres.
  destruct (available_buffers p) as [|x q] eqn:Hav.
  { rewrite reserve_available_empty in Hres by done. by simplify_eq. }
  destruct (reserve_available_spec p id e n x q Hwf Hav) as (bx & Hbx & Heq).
  rewrite Heq in Hres. destruct (max_codeblocks p <? n); simplify_eq; [done|].
  assert (Hx : (x < length (buffer_pool p))%nat) by (by apply lookup_lt_is_Some).
  assert (Hfresh : ∀ k bk, k ∈ reserved_buffers p → buffer_pool p !! k = Some bk →
            tx_buffer_impl.reservation_id bk = id → id = null_identifier).
  { intros k bk Hk Hbk Hidk. destruct Hid as [-> | Hno]; [done|].
    pose proof (Hno k bk Hk Hbk) as Hm.
    apply not_true_iff_false in Hm. exfalso. apply Hm.
    apply match_id_true. split; [by eapply Hst | done]. }
  split; simpl.
  - intros i b Hi Hb. destruct (decide (i = x)) as [-> | Hne].
    + rewrite list_lookup_insert_eq in Hb by done. by simplify_eq.
    + rewrite list_lookup_insert_ne in Hb by done.
      apply elem_of_app in Hi as [Hi | Hi]; [by eapply Hst|].
      by apply list_elem_of_singleton in Hi.
  - intros i j bi bj Hi Hj Hbi Hbj Hsame Hnn.
    destruct (decide (i = x)) as [-> | Hi_ne]; destruct (decide (j = x)) as [-> | Hj_ne];
      try done.
    + rewrite list_lookup_insert_eq in Hbi by done.
      rewrite list_lookup_insert_ne in Hbj by done. simplify_eq. simpl in *.
      apply elem_of_app in Hj as [Hj | Hj];
        [|by apply list_elem_of_singleton in Hj].
      exfalso. apply Hnn. by apply (Hfresh j bj).
    + rewrite list_lookup_insert_ne in Hbi by done.
      rewrite list_lookup_insert_eq in Hbj by done. simplify_eq. simpl in *.
      apply elem_of_app in Hi as [Hi | Hi];
        [|by apply list_elem_of_singleton in Hi].
      exfalso. apply Hnn. rewrite Hsame. by apply (Hfresh i bi).
    + rewrite list_lookup_insert_ne in Hbi by done.
      rewrite list_lookup_insert_ne in Hbj by done.
      apply elem_of_app in Hi as [Hi | Hi];
        [|by apply list_elem_of_singleton in Hi].
      apply elem_of_app in Hj as [Hj | Hj];
        [|by apply list_elem_of_singleton in Hj].
      by apply (Huniq i j bi bj).
Qed.

Lemma do_call_consistent c p p' h :
  pool_wf p → reserved_consistent p → do_call c p = Some (p', h) →
  reserved_consistent p'.
Proof.
  intros Hwf Hcons Hcall.
  destruct c as [slot id n | slot n | slot]; simpl in Hcall.
  - destruct (reserve_buffer_spec p slot id n Hwf)
      as [(x & bx & q1 & q2 & Hq & Hbx & Hm & _ & Heq) | [Hno Heq]];
      rewrite Heq in Hcall.
    + destruct (max_codeblocks p <? n); simplify_eq; [done|].
      destruct Hcons as [Hst Huniq]. apply match_id_true in Hm as [Hstx Hidx].
      assert (Hx : (x < length (buffer_pool p))%nat) by (by apply lookup_lt_is_Some).
      assert (Hold : ∀ i b', <[x := tx_buffer_impl.mk tx_buffer_impl.reserved id
                                      (slot + expire_timeout_slots p)]>
                               (buffer_pool p) !! i = Some b' →
                ∃ b, buffer_pool p !! i = Some b ∧
                     tx_buffer_impl.current_state b' = tx_buffer_impl.current_state b ∧
                     tx_buffer_impl.reservation_id b' = tx_buffer_impl.reservation_id b).
      { intros i b' Hb'. destruct (decide (i = x)) as [-> | Hne].
        - rewrite list_lookup_insert_eq in Hb' by done.
          injection Hb' as <-. exists bx. simpl. by rewrite Hstx, Hidx.
        - rewrite list_lookup_insert_ne in Hb' by done. by exists b'. }
      split; simpl.
      * intros i b' Hi Hb'. destruct (Hold i b' Hb') as (b & Hb & -> & _).
        by eapply Hst.
      * intros i j bi bj Hi Hj Hbi Hbj Hsame Hnn.
        destruct (Hold i bi Hbi) as (bi0 & Hbi0 & _ & Hidi).
        destruct (Hold j bj Hbj) as (bj0 & Hbj0 & _ & Hidj).
        apply (Huniq i j bi0 bj0); try done; congruence.
    + apply (reserve_available_consistent p id (slot + expire_timeout_slots p) n p' h);
        try done. by right.
  - apply (reserve_available_consistent p null_identifier (slot + 1) n p' h);
      try done. by left.
  - destruct (run_slot_visit_spec slot p Hwf) as (bufs' & Heq & _ & Hbufs).
    unfold run_slot in Hcall. rewrite Heq in Hcall. simpl in Hcall. simplify_eq.
    destruct Hcons as [Hst Huniq].
    assert (Hold : ∀ i b', i ∈ filter (λ i, ¬ expired_at slot (buffer_pool p) i = true)
                               (reserved_buffers p) →
                bufs' !! i = Some b' →
                i ∈ reserved_buffers p ∧ buffer_pool p !! i = Some b').
    { intros i b' Hi Hb'. apply list_elem_of_filter in Hi as [Hexp Hi].
      split; [done|].
      destruct (pool_wf_lookup p i Hwf (or_intror Hi)) as [b Hb].
      rewrite (Hbufs i b Hb), decide_True in Hb' by done.
      unfold expired_at in Hexp. rewrite Hb in Hexp.
      rewrite buffer_run_slot_kept in Hb'; [by simplify_eq|].
      destruct (N.leb_spec (tx_buffer_impl.reservation_expire_slot b) slot);
        [done | lia]. }
    split; simpl.
    * intros i b' Hi Hb'. destruct (Hold i b' Hi Hb') as [Hi0 Hb0]. by eapply Hst.
    * intros i j bi bj Hi Hj Hbi Hbj Hsame Hnn.
      destruct (Hold i bi Hi Hbi) as [Hi0 Hbi0].
      destruct (Hold j bj Hj Hbj) as [Hj0 Hbj0].
      by apply (Huniq i j bi bj).
Qed.

Lemma do_calls_consistent cs :
  ∀ p p' hs,
  pool_wf p → reserved_consistent p → do_calls cs p = Some (p', hs) →
  reserved_consistent p'.
Proof.
  induction cs as [|c cs IH]; intros p p' hs Hwf Hcons Hrun.
  - simpl in Hrun. by simplify_eq.
  - destruct (do_call_wf c p Hwf) as (p1 & h & Hc & Hwf1 & _).
    simpl in Hrun. rewrite Hc in Hrun. simpl in Hrun.
    destruct (do_calls cs p1) as [[p2 hs2]|] eqn:Hcs; simpl in Hrun; simplify_eq.
    apply (IH p1 p' hs2); try done. by apply (do_call_consistent c p p1 h).
Qed.

(** In a pool reached from a constructed pool, at most one reserved buffer
    matches an identifier other than the null identifier. *)
Lemma matching_reserved_buffer_unique config cs p hs id i j bi bj :
  do_calls cs (create_tx_buffer_pool config) = Some (p, hs) →
  id ≠ null_identifier →
  i ∈ reserved_buffers p → buffer_pool p !! i = Some bi →
  tx_buffer_impl.match_id bi id = true →
  j ∈ reserved_buffers p → buffer_pool p !! j = Some bj →
  tx_buffer_impl.match_id bj id = true →
  i = j.
Proof.
  intros Hrun Hid Hi Hbi Hmi Hj Hbj Hmj.
  assert (Hcons : reserved_consistent p).
  { apply (do_calls_consistent cs (create_tx_buffer_pool config) p hs); try done.
    - apply create_tx_buffer_pool_wf.
    - split; simpl.
      + intros k b Hk. by apply not_elem_of_nil in Hk.
      + intros k l bk bl Hk. by apply not_elem_of_nil in Hk. }
  apply match_id_true in Hmi as [_ Hmi]. apply match_id_true in Hmj as [_ Hmj].
  destruct Hcons as [_ Huniq]. apply (Huniq i j bi bj); try done; congruence.
Qed.

(** * The specified properties *)

(** C1. From a well-formed pool, every sequence of calls ([reserve_buffer]
    with an identifier, [reserve_buffer] without one, [run_slot]) runs to
    its end, and after it the free and the reserved queue partition the
    indices below the capacity: the capacity is the one the pool started
    with, the two sizes add up to it, neither queue repeats an index, no
    index is in both, and the indices in one of them are exactly those below
    the capacity. A prefix of a sequence of calls is a sequence of calls, so
    this holds after each call. *)
Theorem pool_partition_invariant p cs :
  pool_wf p →
  ∃ p' hs,
    do_calls cs p = Some (p', hs) ∧
    capacity p' = capacity p ∧
    (length (available_buffers p') + length (reserved_buffers p'))%nat = capacity p' ∧
    NoDup (available_buffers p') ∧
    NoDup (reserved_buffers p') ∧
    (∀ i, i ∈ available_buffers p' → i ∉ reserved_buffers p') ∧
    (∀ i, (i < capacity p')%nat ↔ i ∈ available_buffers p' ∨ i ∈ reserved_buffers p').
Proof.
  intros Hwf.
  destruct (do_calls_wf cs p Hwf) as (p' & hs & Hrun & Hwf' & Hcap & _).
  exists p', hs. split; [done|]. split; [done|].
  split; [by apply pool_wf_length|].
  pose proof (pool_wf_NoDup p' Hwf') as Hnd.
  apply NoDup_app in Hnd as (Hnd1 & Hdisj & Hnd2).
  repeat split; try done.
  - by apply pool_wf_elem.
  - by apply pool_wf_elem.
Qed.

(** C2. On a well-formed pool, one call of [run_slot] calls the [run_slot]
    of the buffers at exactly the indices that are in the reserved queue when
    the call starts, in queue order: every such index is visited at one
    position and no other, and nothing else is visited. The indices that
    survive and are pushed back during the sweep are not visited again.
    Every buffer of the reserved queue is, after the call, what its
    [run_slot] made of it, and its index is in the free queue when that call
    reported the buffer available and in the reserved queue otherwise; the
    other buffers are untouched. *)
Theorem run_slot_visits_each_reserved_once slot p :
  pool_wf p →
  ∃ p' visited,
    run_slot_visit slot p = Some (p', visited) ∧
    run_slot slot p = Some p' ∧
    visited = reserved_buffers p ∧
    NoDup visited ∧
    (∀ i, i ∈ reserved_buffers p →
          ∃ k, visited !! k = Some i ∧ ∀ k', visited !! k' = Some i → k' = k) ∧
    (∀ i, i ∈ visited → i ∈ reserved_buffers p) ∧
    (∀ i b, i ∈ reserved_buffers p → buffer_pool p !! i = Some b →
            buffer_pool p' !! i = Some (tx_buffer_impl.run_slot slot b).2 ∧
            if (tx_buffer_impl.run_slot slot b).1
            then i ∈ available_buffers p' ∧ (i ∉ reserved_buffers p')
            else i ∈ reserved_buffers p' ∧ (i ∉ available_buffers p')) ∧
    (∀ i, i ∉ reserved_buffers p → buffer_pool p' !! i = buffer_pool p !! i) ∧
    (∀ i, i ∈ available_buffers p → i ∈ available_buffers p').
Proof.
  intros Hwf.
  destruct (run_slot_visit_spec slot p Hwf) as (bufs' & Hrun & Hlen & Hbufs).
  pose proof (pool_wf_NoDup p Hwf) as Hnd.
  apply NoDup_app in Hnd as (_ & Hdisj & Hnd).
  eexists _, _. split; [exact Hrun|].
  split; [unfold run_slot; by rewrite Hrun|].
  split; [done|]. split; [done|]. split.
  { intros i Hi. apply list_elem_of_lookup in Hi as [k Hk].
    exists k. split; [done|]. intros k' Hk'. by eapply NoDup_lookup. }
  split; [done|]. simpl. split; [|split].
  - intros i b Hi Hb. rewrite (Hbufs i b Hb), decide_True by done.
    split; [done|].
    pose proof (expired_at_flag slot (buffer_pool p) i b Hb) as Hflag.
    destruct ((tx_buffer_impl.run_slot slot b).1).
    + split.
      * apply elem_of_app. right. by apply list_elem_of_filter.
      * rewrite list_elem_of_filter. by intros [? _].
    + split.
      * apply list_elem_of_filter. split; [by rewrite Hflag | done].
      * rewrite elem_of_app, list_elem_of_filter. intros [Hav | [Hexp _]].
        -- by apply (Hdisj i Hav).
        -- by rewrite Hflag in Hexp.
  - intros i Hi. destruct (buffer_pool p !! i) as [b|] eqn:Hb.
    + by rewrite (Hbufs i b Hb), decide_False.
    + apply lookup_ge_None. rewrite Hlen. by apply lookup_ge_None.
  - intros i Hi. apply elem_of_app. by left.
Qed.

(** C3, as amended. In a well-formed pool where the buffer at a reserved
    index [i] is
    bound to [id], [reserve_buffer] with [id] and a codeblock count within
    the buffer capacity returns a valid handle to a buffer of the reserved
    queue that was bound to [id] (the first one in queue order, which is [i]
    itself when no other reserved buffer is bound to [id]); after the call
    that buffer is reserved under [id] with expiry
    [slot + expire_timeout_slots], the two queues are as before, and no other
    buffer has changed. *)
Theorem reserve_buffer_reuses_matching p slot id n i b :
  pool_wf p →
  i ∈ reserved_buffers p →
  buffer_pool p !! i = Some b →
  tx_buffer_impl.match_id b id = true →
  n ≤ max_codeblocks p →
  ∃ j bj p' q1 q2,
    reserve_buffer p slot id n = Some (p', Some j) ∧
    reserved_buffers p = q1 ++ j :: q2 ∧
    buffer_pool p !! j = Some bj ∧
    tx_buffer_impl.match_id bj id = true ∧
    (∀ k bk, k ∈ q1 → buffer_pool p !! k = Some bk →
             tx_buffer_impl.match_id bk id = false) ∧
    ((∀ k bk, k ∈ reserved_buffers p → buffer_pool p !! k = Some bk →
              tx_buffer_impl.match_id bk id = true → k = i) → j = i) ∧
    reserved_until p' j id (slot + expire_timeout_slots p) ∧
    available_buffers p' = available_buffers p ∧
    reserved_buffers p' = reserved_buffers p ∧
    (∀ k, k ≠ j → buffer_pool p' !! k = buffer_pool p !! k).
Proof.
  intros Hwf Hi Hb Hm Hn.
  destruct (reserve_buffer_spec p slot id n Hwf)
    as [(j & bj & q1 & q2 & Hq & Hbj & Hmj & Hfirst & Heq) | [Hno _]].
  2:{ rewrite (Hno i b Hi Hb) in Hm. done. }
  assert (Hj : j ∈ reserved_buffers p).
  { rewrite Hq. apply elem_of_app. right. by left. }
  destruct (N.ltb_spec (max_codeblocks p) n) as [Hlt | _]; [lia|].
  eexists j, bj, _, q1, q2. split; [exact Heq|]. repeat split; try done.
  - intros Huniq. by apply (Huniq j bj).
  - simpl. apply list_lookup_insert_eq. by apply lookup_lt_is_Some.
  - intros k Hk. simpl. by apply list_lookup_insert_ne.
Qed.

(** C4. A buffer reserved by [reserve_buffer] at slot [S] under [id], with
    [T = expire_timeout_slots], has expiry [S + T]. After any further calls
    that return no handle to it and whose [run_slot] calls are all for slots
    before [S + T], it is still in the reserved queue, bound to [id] with the
    same expiry, and not in the free queue; the next [run_slot] for a slot at
    or after [S + T] moves it to the free queue with its identifier
    cleared. *)
Theorem reservation_expiry p S id n i p0 :
  pool_wf p →
  reserve_buffer p S id n = Some (p0, Some i) →
  reserved_until p0 i id (S + expire_timeout_slots p) ∧
  ∀ cs, ∃ p1 hs,
    do_calls cs p0 = Some (p1, hs) ∧
    (not_handed_out i hs → slots_before (S + expire_timeout_slots p) cs →
       reserved_until p1 i id (S + expire_timeout_slots p) ∧
       (i ∉ available_buffers p1) ∧
       ∀ s, S + expire_timeout_slots p ≤ s →
            ∃ p2, run_slot s p1 = Some p2 ∧ is_free p2 i).
Proof.
  intros Hwf Hres.
  pose proof (reserve_buffer_handle p S id n p0 i Hwf Hres) as Hres0.
  assert (Hwf0 : pool_wf p0).
  { destruct (reserve_buffer_wf p S id n Hwf) as (p' & h & Heq & Hwf' & _).
    congruence. }
  split; [done|]. intros cs.
  destruct (do_calls_wf cs p0 Hwf0) as (p1 & hs & Hrun & Hwf1 & _).
  exists p1, hs. split; [done|]. intros Hhs Hslots.
  destruct (do_calls_keep_reserved i id _ cs p0 p1 hs Hwf0 Hres0 Hrun Hhs Hslots)
    as [_ Hres1].
  split; [done|]. split.
  - intros Hav. by apply (pool_wf_disjoint p1 i Hwf1 Hav), Hres1.
  - intros s Hs. destruct (run_slot_wf s p1 Hwf1) as (p2 & Hslot & _).
    exists p2. split; [done|]. by eapply run_slot_frees.
Qed.

(** C5, as amended. A successful [reserve_buffer] without identifier at slot
    [S] reserves the buffer under the null identifier with expiry [S + 1].
    After any further calls that return no handle to that buffer, the buffer
    is in the free queue, with its identifier cleared, after [run_slot] for
    slot [S + 1]. *)
Theorem transient_reservation_expiry p S n i p0 :
  pool_wf p →
  reserve_buffer_no_id p S n = Some (p0, Some i) →
  reserved_until p0 i null_identifier (S + 1) ∧
  ∀ cs, ∃ p1 hs,
    do_calls cs p0 = Some (p1, hs) ∧
    (not_handed_out i hs →
       ∃ p2, run_slot (S + 1) p1 = Some p2 ∧ is_free p2 i).
Proof.
  intros Hwf Hres. unfold reserve_buffer_no_id in Hres.
  destruct (reserve_available_handle p _ _ n p0 i Hwf Hres) as [_ Hres0].
  assert (Hwf0 : pool_wf p0).
  { destruct (reserve_available_wf p null_identifier (S + 1) n Hwf)
      as (p' & h & Heq & Hwf' & _).
    congruence. }
  split; [done|]. intros cs.
  destruct (do_calls_wf cs p0 Hwf0) as (p1 & hs & Hrun & Hwf1 & _).
  exists p1, hs. split; [done|]. intros Hhs.
  destruct (do_calls_reserved_or_free i null_identifier (S + 1) cs p0 p1 hs
              Hwf0 (or_introl Hres0) Hrun Hhs) as [_ Hst].
  destruct (run_slot_wf (S + 1) p1 Hwf1) as (p2 & Hslot & _).
  exists p2. split; [done|]. destruct Hst as [Hres1 | Hfree1].
  - by apply (run_slot_frees (S + 1) p1 i null_identifier (S + 1)).
  - by apply (run_slot_keeps_free (S + 1) p1).
Qed.

(** C6. In a well-formed pool whose free queue is empty and where no reserved
    buffer matches [id], [reserve_buffer] with [id] returns the invalid
    handle and the pool after the call is the pool before it (both queues
    and every buffer); with an empty free queue the overload without
    identifier does the same. *)
Theorem reserve_exhausted p slot id n :
  pool_wf p →
  available_buffers p = [] →
  (∀ i b, i ∈ reserved_buffers p → buffer_pool p !! i = Some b →
          tx_buffer_impl.match_id b id = false) →
  reserve_buffer p slot id n = Some (p, None) ∧
  reserve_buffer_no_id p slot n = Some (p, None).
Proof.
  intros Hwf Hav Hno. split.
  - destruct (reserve_buffer_spec p slot id n Hwf)
      as [(j & bj & q1 & q2 & Hq & Hbj & Hmj & _) | [_ ->]].
    + rewrite (Hno j bj) in Hmj; [done | | done].
      rewrite Hq. apply elem_of_app. right. by left.
    + by apply reserve_available_empty.
  - by apply reserve_available_empty.
Qed.

(** Where a handle comes from. A valid handle returned by a call on a
    well-formed pool refers to an index that is in the reserved queue, and not
    in the free queue, after the call. Either the index was the first of the
    free queue and not reserved before the call, or it was already reserved
    and the call is [reserve_buffer] with the identifier the buffer is bound
    to. *)
Lemma handle_refers_to_reserved p c p' i :
  pool_wf p →
  do_call c p = Some (p', Some i) →
  i ∈ reserved_buffers p' ∧ (i ∉ available_buffers p') ∧
  ((i ∈ reserved_buffers p ∧
    ∃ slot id n b, c = call_reserve slot id n ∧ buffer_pool p !! i = Some b ∧
                   tx_buffer_impl.match_id b id = true)
   ∨
   ((i ∉ reserved_buffers p) ∧ index_queue.top (available_buffers p) = Some i)).
Proof.
  intros Hwf Hcall.
  assert (Hwf' : pool_wf p').
  { destruct (do_call_wf c p Hwf) as (p1 & h & Heq & Hwf1 & _). congruence. }
  assert (Hfree : ∀ id e n, reserve_available p id e n = Some (p', Some i) →
            i ∈ reserved_buffers p' ∧ (i ∉ reserved_buffers p) ∧
            index_queue.top (available_buffers p) = Some i).
  { intros id e n Hres.
    destruct (reserve_available_handle p id e n p' i Hwf Hres) as [Htop [Hi _]].
    repeat split; try done.
    apply (pool_wf_disjoint p i Hwf).
    destruct (available_buffers p); simpl in Htop; simplify_eq. by left. }
  assert (Hgoal : i ∈ reserved_buffers p' ∧
            ((i ∈ reserved_buffers p ∧
              ∃ slot id n b, c = call_reserve slot id n ∧
                             buffer_pool p !! i = Some b ∧
                             tx_buffer_impl.match_id b id = true)
             ∨ ((i ∉ reserved_buffers p) ∧
                index_queue.top (available_buffers p) = Some i))).
  { destruct c as [slot id n | slot n | slot]; simpl in Hcall.
    - destruct (reserve_buffer_spec p slot id n Hwf)
        as [(j & b & q1 & q2 & Hq & Hb & Hm & _ & Heq) | [_ Heq]];
        rewrite Heq in Hcall.
      + destruct (max_codeblocks p <? n); simplify_eq.
        assert (Hi : i ∈ reserved_buffers p).
        { rewrite Hq. apply elem_of_app. right. by left. }
        split; [done|]. left. split; [done|]. by exists slot, id, n, b.
      + destruct (Hfree _ _ _ Hcall) as (? & ? & ?). split; [done|]. by right.
    - destruct (Hfree _ _ _ Hcall) as (? & ? & ?). split; [done|]. by right.
    - destruct (run_slot slot p); simpl in Hcall; simplify_eq. }
  destruct Hgoal as [Hi Horigin]. split; [done|]. split; [|done].
  intros Hav. by apply (pool_wf_disjoint p' i Hwf' Hav).
Qed.

(** C8, as amended. The formatter renders an identifier as
    [rnti=0x<id> h_id=<n>], with <id> the [rnti] in lower-case hexadecimal
    and <n> the [harq_ack_id] in decimal. *)
Theorem format_identifier value :
  fmt.format value =
    Some (String.append "rnti=0x"
            (String.append (fmt.hex_digits (rnti value))
               (String.append " h_id=" (fmt.dec_digits (harq_ack_id value))))).
Proof.
  assert (Hassoc : ∀ a b c : string,
            String.append (String.append a b) c = String.append a (String.append b c)).
  { intros a b c. induction a as [|x a IH]; simpl; [done | by rewrite IH]. }
  unfold fmt.format, fmt.format_to. cbn. by rewrite !Hassoc.
Qed.

(** C9. In a well-formed pool with a non-empty free queue whose first index
    is [i]: when no reserved buffer matches [id] and the reservation of the
    buffer at [i] fails, [reserve_buffer] with [id] returns the invalid
    handle and leaves both queues as they were, so [i] is still free; the
    overload without identifier does the same when the reservation of the
    buffer fails. *)
Theorem reserve_failure_keeps_index_free p slot id n i b :
  pool_wf p →
  index_queue.top (available_buffers p) = Some i →
  buffer_pool p !! i = Some b →
  ((∀ k bk, k ∈ reserved_buffers p → buffer_pool p !! k = Some bk →
            tx_buffer_impl.match_id bk id = false) →
   (tx_buffer_impl.reserve (max_codeblocks p) id
      (slot + expire_timeout_slots p) n b).1 ≠ successful →
   ∃ p', reserve_buffer p slot id n = Some (p', None) ∧
         available_buffers p' = available_buffers p ∧
         reserved_buffers p' = reserved_buffers p ∧
         i ∈ available_buffers p' ∧ (i ∉ reserved_buffers p'))
  ∧
  ((tx_buffer_impl.reserve (max_codeblocks p) null_identifier
      (slot + 1) n b).1 ≠ successful →
   ∃ p', reserve_buffer_no_id p slot n = Some (p', None) ∧
         available_buffers p' = available_buffers p ∧
         reserved_buffers p' = reserved_buffers p ∧
         i ∈ available_buffers p' ∧ (i ∉ reserved_buffers p')).
Proof.
  intros Hwf Htop Hb.
  destruct (available_buffers p) as [|j q] eqn:Hav; simpl in Htop; simplify_eq.
  assert (Hi : i ∈ available_buffers p) by (rewrite Hav; by left).
  pose proof (pool_wf_disjoint p i Hwf Hi) as Hni.
  split.
  - intros Hno Hfail.
    destruct (reserve_buffer_spec p slot id n Hwf)
      as [(j & bj & q1 & q2 & Hq & Hbj & Hmj & _) | [_ Heq]].
    { rewrite (Hno j bj) in Hmj; [done | | done].
      rewrite Hq. apply elem_of_app. right. by left. }
    eexists. rewrite Heq.
    rewrite (reserve_available_fail p id _ n i q b Hav Hb Hfail).
    split; [done|]. simpl. by rewrite <- Hav.
  - intros Hfail. eexists. unfold reserve_buffer_no_id.
    rewrite (reserve_available_fail p _ _ n i q b Hav Hb Hfail).
    split; [done|]. simpl. by rewrite <- Hav.
Qed.

(** C10. On a well-formed pool, [reserve_buffer] without identifier returns
    the invalid handle and changes nothing when the free queue is empty. When
    the free queue is not empty and the reservation of its first buffer
    succeeds, it returns a valid handle to that first index. A valid handle
    it returns is always to the first index of the free queue, which is not
    in the reserved queue before the call, whatever identifiers the reserved
    buffers are bound to; the index then moves from the free to the reserved
    queue, its buffer is reserved under the null identifier until
    [slot + 1], and no other buffer changes. With an invalid handle both
    queues are as before. *)
Theorem reserve_no_id_takes_free_index p slot n :
  pool_wf p →
  ∃ p' h,
    reserve_buffer_no_id p slot n = Some (p', h) ∧
    (available_buffers p = [] → h = None ∧ p' = p) ∧
    (∀ i q b, available_buffers p = i :: q → buffer_pool p !! i = Some b →
              (tx_buffer_impl.reserve (max_codeblocks p) null_identifier
                 (slot + 1) n b).1 = successful →
              h = Some i) ∧
    (∀ i, h = Some i →
          index_queue.top (available_buffers p) = Some i ∧
          (i ∉ reserved_buffers p) ∧
          available_buffers p' = index_queue.pop (available_buffers p) ∧
          reserved_buffers p' = index_queue.push i (reserved_buffers p) ∧
          buffer_pool p' !! i =
            Some (tx_buffer_impl.mk tx_buffer_impl.reserved null_identifier
                    (slot + 1)) ∧
          (∀ k, k ≠ i → buffer_pool p' !! k = buffer_pool p !! k)) ∧
    (h = None →
       available_buffers p' = available_buffers p ∧
       reserved_buffers p' = reserved_buffers p).
Proof.
  intros Hwf. unfold reserve_buffer_no_id.
  destruct (available_buffers p) as [|j q] eqn:Hav.
  - exists p, None. rewrite reserve_available_empty by done.
    by repeat split.
  - destruct (reserve_available_spec p null_identifier (slot + 1) n j q Hwf Hav)
      as (b & Hb & ->).
    unfold tx_buffer_impl.reserve.
    destruct (max_codeblocks p <? n).
    + exists p, None. split; [done|]. split; [done|]. split; [|by split].
      intros i q' b' Hiq Hb' Hst. simplify_eq.
    + eexists _, _. split; [done|]. simpl. split; [done|]. split; [|split; [|done]].
      * intros i q' b' Hiq Hb' _. by simplify_eq.
      * intros i Hi. simplify_eq. split; [done|]. split.
        { apply (pool_wf_disjoint p i Hwf). rewrite Hav. by left. }
        split; [done|]. split; [done|]. split.
        -- apply list_lookup_insert_eq. by apply lookup_lt_is_Some.
        -- intros k Hk. by apply list_lookup_insert_ne.
Qed.

(** * The theorems at concrete pools *)

(** The scenario of section 8 of the spec. *)
Lemma pool_partition_invariant_witness :
  pool_wf example_pool ∧
  ∃ p' hs,
    do_calls [call_reserve 10 id_A 3; call_reserve 10 id_B 3;
              call_reserve 11 id_C 1; call_run_slot 14; call_reserve 14 id_C 1]
      example_pool = Some (p', hs) ∧
    capacity p' = capacity example_pool ∧
    (length (available_buffers p') + length (reserved_buffers p'))%nat = capacity p' ∧
    NoDup (available_buffers p') ∧
    NoDup (reserved_buffers p') ∧
    (∀ i, i ∈ available_buffers p' → i ∉ reserved_buffers p') ∧
    (∀ i, (i < capacity p')%nat ↔ i ∈ available_buffers p' ∨ i ∈ reserved_buffers p').
Proof.
  split; [unfold pool_wf; simpl; reflexivity|].
  apply pool_partition_invariant. unfold pool_wf. simpl. reflexivity.
Defined.

(** Buffer 0 expires at slot 14 and buffer 1 survives: both are visited,
    once; buffer 0 is freed and moved to the free queue, buffer 1 is back in
    the reserved queue as it was. *)
Lemma run_slot_visits_each_reserved_once_witness :
  pool_wf example_pool_full ∧
  ∃ p', run_slot_visit 14 example_pool_full = Some (p', [0%nat; 1%nat]) ∧
        run_slot 14 example_pool_full = Some p' ∧
        buffer_pool p' !! 0%nat =
          Some (tx_buffer_impl.mk tx_buffer_impl.free null_identifier 14) ∧
        0%nat ∈ available_buffers p' ∧ (0%nat ∉ reserved_buffers p') ∧
        buffer_pool p' !! 1%nat =
          Some (tx_buffer_impl.mk tx_buffer_impl.reserved id_B 15) ∧
        1%nat ∈ reserved_buffers p' ∧ (1%nat ∉ available_buffers p').
Proof.
  split; [unfold pool_wf; simpl; reflexivity|].
  destruct (run_slot_visits_each_reserved_once 14 example_pool_full)
    as (p' & visited & Hvisit & Hrun & -> & _ & _ & _ & Hproc & _).
  { unfold pool_wf. simpl. reflexivity. }
  exists p'. split; [exact Hvisit|]. split; [exact Hrun|].
  destruct (Hproc 0%nat (tx_buffer_impl.mk tx_buffer_impl.reserved id_A 14))
    as [Hb0 [Hav0 Hrs0]]; [simpl; apply elem_of_cons; by left | reflexivity |].
  destruct (Hproc 1%nat (tx_buffer_impl.mk tx_buffer_impl.reserved id_B 15))
    as [Hb1 [Hrs1 Hav1]];
    [simpl; apply elem_of_cons; right; apply elem_of_cons; by left | reflexivity |].
  repeat split; done.
Defined.

Lemma reserve_buffer_reuses_matching_witness :
  pool_wf (example_pool_reserved id_A) ∧
  ∃ j p',
    reserve_buffer (example_pool_reserved id_A) 11 id_A 3 = Some (p', Some j) ∧
    reserved_until p' j id_A (11 + 4).
Proof.
  split; [unfold pool_wf; simpl; reflexivity|].
  destruct (reserve_buffer_reuses_matching (example_pool_reserved id_A) 11 id_A 3 1
              (tx_buffer_impl.mk tx_buffer_impl.reserved id_A 14))
    as (j & bj & p' & q1 & q2 & Hres & _ & _ & _ & _ & _ & Huntil & _).
  - unfold pool_wf. simpl. reflexivity.
  - simpl. apply elem_of_cons. by left.
  - reflexivity.
  - reflexivity.
  - simpl. lia.
  - by exists j, p'.
Defined.

Lemma reservation_expiry_witness :
  pool_wf example_pool ∧
  ∃ p0,
    reserve_buffer example_pool 10 id_A 3 = Some (p0, Some 0%nat) ∧
    reserved_until p0 0 id_A (10 + expire_timeout_slots example_pool) ∧
    ∀ cs, ∃ p1 hs,
      do_calls cs p0 = Some (p1, hs) ∧
      (not_handed_out 0 hs →
       slots_before (10 + expire_timeout_slots example_pool) cs →
       reserved_until p1 0 id_A (10 + expire_timeout_slots example_pool) ∧
       (0%nat ∉ available_buffers p1) ∧
       ∀ s, 10 + expire_timeout_slots example_pool ≤ s →
            ∃ p2, run_slot s p1 = Some p2 ∧ is_free p2 0).
Proof.
  split; [unfold pool_wf; simpl; reflexivity|].
  eexists. split; [reflexivity|].
  apply (reservation_expiry example_pool 10 id_A 3 0).
  - unfold pool_wf. simpl. reflexivity.
  - reflexivity.
Defined.

Lemma transient_reservation_expiry_witness :
  pool_wf example_pool ∧
  ∃ p0,
    reserve_buffer_no_id example_pool 10 3 = Some (p0, Some 0%nat) ∧
    reserved_until p0 0 null_identifier (10 + 1) ∧
    ∀ cs, ∃ p1 hs,
      do_calls cs p0 = Some (p1, hs) ∧
      (not_handed_out 0 hs →
       ∃ p2, run_slot (10 + 1) p1 = Some p2 ∧ is_free p2 0).
Proof.
  split; [unfold pool_wf; simpl; reflexivity|].
  eexists. split; [reflexivity|].
  apply (transient_reservation_expiry example_pool 10 3 0).
  - unfold pool_wf. simpl. reflexivity.
  - reflexivity.
Defined.

Lemma reserve_exhausted_witness :
  pool_wf example_pool_full ∧
  available_buffers example_pool_full = [] ∧
  reserve_buffer example_pool_full 11 id_C 1 = Some (example_pool_full, None) ∧
  reserve_buffer_no_id example_pool_full 11 1 = Some (example_pool_full, None).
Proof.
  split; [unfold pool_wf; simpl; reflexivity|]. split; [reflexivity|].
  apply reserve_exhausted.
  - unfold pool_wf. simpl. reflexivity.
  - reflexivity.
  - intros i b Hi Hb. simpl in Hi, Hb.
    apply elem_of_cons in Hi as [-> | Hi]; [vm_compute in Hb; simplify_eq; reflexivity|].
    apply elem_of_cons in Hi as [-> | Hi]; [vm_compute in Hb; simplify_eq; reflexivity|].
    by apply not_elem_of_nil in Hi.
Defined.

Lemma handle_refers_to_reserved_witness :
  pool_wf example_pool ∧
  ∃ p',
    do_call (call_reserve 10 id_A 3) example_pool = Some (p', Some 0%nat) ∧
    0%nat ∈ reserved_buffers p' ∧ (0%nat ∉ available_buffers p').
Proof.
  assert (Hwf : pool_wf example_pool) by (unfold pool_wf; simpl; reflexivity).
  split; [exact Hwf|].
  destruct (do_call_wf (call_reserve 10 id_A 3) example_pool Hwf)
    as (p' & h & Hcall & _).
  assert (h = Some 0%nat) as -> by (vm_compute in Hcall; congruence).
  exists p'. split; [exact Hcall|].
  destruct (handle_refers_to_reserved example_pool (call_reserve 10 id_A 3) p' 0
              Hwf Hcall) as (Hin & Hnot & _).
  by split.
Defined.

(** Nine codeblocks do not fit a buffer of eight. *)
Lemma reserve_failure_keeps_index_free_witness :
  pool_wf (example_pool_reserved id_B) ∧
  index_queue.top (available_buffers (example_pool_reserved id_B)) = Some 0%nat ∧
  (∃ p', reserve_buffer (example_pool_reserved id_B) 10 id_A 9 = Some (p', None) ∧
         available_buffers p' = [0%nat] ∧ reserved_buffers p' = [1%nat]) ∧
  (∃ p', reserve_buffer_no_id (example_pool_reserved id_B) 10 9 = Some (p', None) ∧
         available_buffers p' = [0%nat] ∧ reserved_buffers p' = [1%nat]).
Proof.
  split; [unfold pool_wf; simpl; reflexivity|]. split; [reflexivity|].
  destruct (reserve_failure_keeps_index_free (example_pool_reserved id_B) 10 id_A 9 0
              tx_buffer_impl.init) as [Hid Hno_id].
  - unfold pool_wf. simpl. reflexivity.
  - reflexivity.
  - reflexivity.
  - split.
    + destruct Hid as (p' & Hres & Hav & Hrs & _).
      * intros k bk Hk Hbk. simpl in Hk, Hbk.
        apply elem_of_cons in Hk as [-> | Hk]; [vm_compute in Hbk; simplify_eq; reflexivity|].
        by apply not_elem_of_nil in Hk.
      * vm_compute. discriminate.
      * by exists p'.
    + destruct Hno_id as (p' & Hres & Hav & Hrs & _).
      * vm_compute. discriminate.
      * by exists p'.
Defined.

(** Buffer 1 is reserved under the null identifier; the handle is to the free
    buffer 0, which joins the reserved queue behind buffer 1. *)
Lemma reserve_no_id_takes_free_index_witness :
  pool_wf (example_pool_reserved null_identifier) ∧
  ∃ p',
    reserve_buffer_no_id (example_pool_reserved null_identifier) 10 3 =
      Some (p', Some 0%nat) ∧
    (0%nat ∉ reserved_buffers (example_pool_reserved null_identifier)) ∧
    available_buffers p' = [] ∧
    reserved_buffers p' = [1%nat; 0%nat] ∧
    buffer_pool p' !! 0%nat =
      Some (tx_buffer_impl.mk tx_buffer_impl.reserved null_identifier (10 + 1)).
Proof.
  split; [unfold pool_wf; simpl; reflexivity|].
  destruct (reserve_no_id_takes_free_index (example_pool_reserved null_identifier) 10 3)
    as (p' & h & Hres & _ & Hvalid & Hsome & _).
  { unfold pool_wf. simpl. reflexivity. }
  assert (h = Some 0%nat) as ->.
  { apply (Hvalid 0%nat [] tx_buffer_impl.init); reflexivity. }
  exists p'. split; [exact Hres|].
  destruct (Hsome 0%nat eq_refl) as (_ & Hni & Hav & Hrs & Hb & _).
  repeat split; done.
Defined.

(** * Where the code departs from the spec *)

(** C3, as stated, fails: after two reservations without identifier the
    buffers 0 and 1 are both reserved under the null identifier;
    [reserve_buffer] with the null identifier and three codeblocks, within
    the capacity of eight, returns a handle to buffer 0, the first match of
    the scan, and not to buffer 1, which is bound to that identifier as
    well. *)
Lemma reserve_buffer_returns_first_match :
  ∃ p p' b,
    do_calls [call_reserve_no_id 10 3; call_reserve_no_id 10 3] example_pool =
      Some (p, [Some 0%nat; Some 1%nat]) ∧
    pool_wf p ∧
    1%nat ∈ reserved_buffers p ∧
    buffer_pool p !! 1%nat = Some b ∧
    tx_buffer_impl.match_id b null_identifier = true ∧
    3 ≤ max_codeblocks p ∧
    reserve_buffer p 11 null_identifier 3 = Some (p', Some 0%nat) ∧
    reserve_buffer p 11 null_identifier 3 ≠ Some (p', Some 1%nat).
Proof.
  eexists _, _, _. split; [reflexivity|].
  split; [unfold pool_wf; simpl; reflexivity|].
  split; [simpl; apply elem_of_cons; right; apply elem_of_cons; by left|].
  split; [reflexivity|]. split; [reflexivity|]. split; [simpl; lia|].
  split; [reflexivity|]. vm_compute. discriminate.
Qed.

(** C5, as stated, fails: with [expire_timeout_slots = 4], buffer 0 is
    reserved without identifier at slot 10; [reserve_buffer] with the null
    identifier at slot 10 finds it in the reserved queue and rebinds its
    expiry to slot 14; after [run_slot] for slot 11 the buffer is still
    reserved, not free. *)
Lemma transient_reservation_renewed :
  ∃ p0 p1,
    reserve_buffer_no_id example_pool 10 3 = Some (p0, Some 0%nat) ∧
    do_calls [call_reserve 10 null_identifier 3; call_run_slot (10 + 1)] p0 =
      Some (p1, [Some 0%nat; None]) ∧
    reserved_until p1 0 null_identifier 14 ∧
    ¬ is_free p1 0.
Proof.
  eexists _, _. split; [reflexivity|]. split; [reflexivity|]. split.
  - split; [|reflexivity]. simpl. apply elem_of_cons. by left.
  - intros (_ & Hni & _). apply Hni. simpl. apply elem_of_cons. by left.
Qed.

(** C8, as stated, fails: the text of an identifier starts with [rnti=], not
    with [endpoint=]. *)
Lemma format_is_not_endpoint :
  fmt.format {| rnti := 17921; harq_ack_id := 3 |} = Some "rnti=0x4601 h_id=3"%string ∧
  ¬ ∃ a b : string,
      fmt.format {| rnti := 17921; harq_ack_id := 3 |} =
        Some (String.append "endpoint="
                (String.append a (String.append " h_id=" b))).
Proof.
  split; [reflexivity|]. intros (a & b & H). vm_compute in H. discriminate H.
Qed.

(** * Further properties of the pool *)

Lemma reserve_buffer_fresh p slot id n i q :
  pool_wf p →
  (∀ k bk, k ∈ reserved_buffers p → buffer_pool p !! k = Some bk →
           tx_buffer_impl.match_id bk id = false) →
  available_buffers p = i :: q →
  n ≤ max_codeblocks p →
  ∃ p',
    reserve_buffer p slot id n = Some (p', Some i) ∧
    available_buffers p' = q ∧
    reserved_buffers p' = reserved_buffers p ++ [i] ∧
    buffer_pool p' !! i =
      Some (tx_buffer_impl.mk tx_buffer_impl.reserved id
              (slot + expire_timeout_slots p)) ∧
    (∀ k, k ≠ i → buffer_pool p' !! k = buffer_pool p !! k).
Proof.
  intros Hwf Hno Hav Hn.
  destruct (reserve_buffer_spec p slot id n Hwf)
    as [(j & bj & q1 & q2 & Hq & Hbj & Hmj & _) | [_ Heq]].
  { rewrite (Hno j bj) in Hmj; [done | | done].
    rewrite Hq. apply elem_of_app. right. by left. }
  destruct (reserve_available_spec p id (slot + expire_timeout_slots p) n i q Hwf Hav)
    as (b & Hb & Heq').
  rewrite Heq, Heq'.
  destruct (N.ltb_spec (max_codeblocks p) n); [lia|].
  eexists. split; [done|]. simpl. repeat split.
  - apply list_lookup_insert_eq. by apply lookup_lt_is_Some.
  - intros k Hk. by apply list_lookup_insert_ne.
Qed.

(** X2. When no reserved buffer matches [id], the free queue starts with [i]
    and the codeblocks fit, [reserve_buffer] returns a handle to [i]
    (lines 67-87): [i] leaves the front of the free queue and joins the back
    of the reserved queue, the buffer at [i] is bound to [id] with expiry
    [slot + expire_timeout_slots], and every other buffer is as before. *)
Theorem reserve_buffer_takes_first_free p slot id n i q :
  pool_wf p →
  (∀ k bk, k ∈ reserved_buffers p → buffer_pool p !! k = Some bk →
           tx_buffer_impl.match_id bk id = false) →
  available_buffers p = i :: q →
  n ≤ max_codeblocks p →
  ∃ p',
    reserve_buffer p slot id n = Some (p', Some i) ∧
    available_buffers p' = q ∧
    reserved_buffers p' = reserved_buffers p ++ [i] ∧
    buffer_pool p' !! i =
      Some (tx_buffer_impl.mk tx_buffer_impl.reserved id
              (slot + expire_timeout_slots p)) ∧
    (∀ k, k ≠ i → buffer_pool p' !! k = buffer_pool p !! k).
Proof.
  intros Hwf Hno Hav Hn.
  destruct (reserve_buffer_spec p slot id n Hwf)
    as [(j & bj & q1 & q2 & Hq & Hbj & Hmj & _) | [_ Heq]].
  { rewrite (Hno j bj) in Hmj; [done | | done].
    rewrite Hq. apply elem_of_app. right. by left. }
  destruct (reserve_available_spec p id (slot + expire_timeout_slots p) n i q Hwf Hav)
    as (b & Hb & Heq').
  rewrite Heq, Heq'.
  destruct (N.ltb_spec (max_codeblocks p) n); [lia|].
  eexists. split; [done|]. simpl. repeat split.
  - apply list_lookup_insert_eq. by apply lookup_lt_is_Some.
  - intros k Hk. by apply list_lookup_insert_ne.
Qed.

(** X3. A reservation moves at most one index. With an invalid handle both
    overloads leave the two queues as they were; with a valid handle [i] the
    reserved queue is the old one, or the old one with [i] appended while
    the free queue loses its first entry [i]. No index ever leaves the
    reserved queue in a reservation. *)
Theorem reserve_moves_at_most_the_handle p c p' h :
  pool_wf p →
  (∀ slot, c ≠ call_run_slot slot) →
  do_call c p = Some (p', h) →
  match h with
  | None =>
      available_buffers p' = available_buffers p ∧
      reserved_buffers p' = reserved_buffers p
  | Some i =>
      (available_buffers p' = available_buffers p ∧
       reserved_buffers p' = reserved_buffers p ∧ i ∈ reserved_buffers p)
      ∨
      (available_buffers p = i :: available_buffers p' ∧
       reserved_buffers p' = reserved_buffers p ++ [i])
  end.
Proof.
  intros Hwf Hc Hcall.
  assert (Hfree : ∀ id e n, reserve_available p id e n = Some (p', h) →
            match h with
            | None =>
                available_buffers p' = available_buffers p ∧
                reserved_buffers p' = reserved_buffers p
            | Some i =>
                (available_buffers p' = available_buffers p ∧
                 reserved_buffers p' = reserved_buffers p ∧ i ∈ reserved_buffers p)
                ∨
                (available_buffers p = i :: available_buffers p' ∧
                 reserved_buffers p' = reserved_buffers p ++ [i])
            end).
  { intros id e n Hres. destruct (available_buffers p) as [|x q] eqn:Hav.
    - rewrite reserve_available_empty in Hres by done. simplify_eq. by rewrite Hav.
    - destruct (reserve_available_spec p id e n x q Hwf Hav) as (b & Hb & Heq).
      rewrite Heq in Hres. destruct (max_codeblocks p <? n); simplify_eq.
      + by rewrite Hav.
      + by right. }
  destruct c as [slot id n | slot n | slot]; simpl in Hcall.
  - destruct (reserve_buffer_spec p slot id n Hwf)
      as [(j & bj & q1 & q2 & Hq & Hbj & Hmj & _ & Heq) | [_ Heq]];
      rewrite Heq in Hcall.
    + destruct (max_codeblocks p <? n); simplify_eq; [done|].
      left. simpl. repeat split. rewrite Hq. apply elem_of_app. right. by left.
    + by eapply Hfree.
  - by eapply Hfree.
  - by destruct (Hc slot).
Qed.

(** X4. What [run_slot] does to the queues (lines 131-149): the reserved
    queue keeps the indices whose buffers have not reached their expiry
    slot, in their order; the expired ones are appended to the free queue,
    in their order, behind the indices that were free already. The buffers
    of indices outside the reserved queue are not touched. *)
Theorem run_slot_rotation slot p :
  pool_wf p →
  ∃ p',
    run_slot slot p = Some p' ∧
    reserved_buffers p' =
      filter (λ i, ¬ expired_at slot (buffer_pool p) i = true) (reserved_buffers p) ∧
    available_buffers p' =
      available_buffers p ++
        filter (λ i, expired_at slot (buffer_pool p) i = true) (reserved_buffers p) ∧
    capacity p' = capacity p ∧
    (∀ i, i ∉ reserved_buffers p → buffer_pool p' !! i = buffer_pool p !! i).
Proof.
  intros Hwf.
  destruct (run_slot_visit_spec slot p Hwf) as (bufs' & Heq & Hlen & Hbufs).
  eexists. unfold run_slot. rewrite Heq. simpl. repeat split; try done.
  intros i Hi. simpl. destruct (buffer_pool p !! i) as [b|] eqn:Hb.
  - by rewrite (Hbufs i b Hb), decide_False.
  - apply lookup_ge_None. rewrite Hlen. by apply lookup_ge_None.
Qed.

(** X5. After [run_slot] for [slot], every buffer still in the reserved queue
    is the buffer it was, with an expiry slot after [slot]; every index that
    left the reserved queue is free, with its identifier cleared. *)
Theorem run_slot_leaves_no_expired slot p p' :
  pool_wf p →
  run_slot slot p = Some p' →
  (∀ i b, i ∈ reserved_buffers p' → buffer_pool p' !! i = Some b →
          i ∈ reserved_buffers p ∧ buffer_pool p !! i = Some b ∧
          slot < tx_buffer_impl.reservation_expire_slot b) ∧
  (∀ i, i ∈ reserved_buffers p → i ∉ reserved_buffers p' → is_free p' i).
Proof.
  intros Hwf Hrun.
  destruct (run_slot_visit_spec slot p Hwf) as (bufs' & Heq & Hlen & Hbufs).
  unfold run_slot in Hrun. rewrite Heq in Hrun. simpl in Hrun. simplify_eq.
  simpl. split.
  - intros i b' Hi Hb'. apply list_elem_of_filter in Hi as [Hexp Hi].
    destruct (pool_wf_lookup p i Hwf (or_intror Hi)) as [b Hb].
    rewrite (Hbufs i b Hb), decide_True in Hb' by done.
    unfold expired_at in Hexp. rewrite Hb in Hexp.
    assert (Hlt : slot < tx_buffer_impl.reservation_expire_slot b).
    { destruct (N.leb_spec (tx_buffer_impl.reservation_expire_slot b) slot);
        [done | lia]. }
    rewrite buffer_run_slot_kept in Hb' by done. by simplify_eq.
  - intros i Hi Hni.
    destruct (pool_wf_lookup p i Hwf (or_intror Hi)) as [b Hb].
    assert (Hexp : expired_at slot (buffer_pool p) i = true).
    { destruct (expired_at slot (buffer_pool p) i) eqn:He; [done|].
      exfalso. apply Hni. apply list_elem_of_filter. split; [|done].
      by rewrite He. }
    repeat split.
    + apply elem_of_app. right. by apply list_elem_of_filter.
    + done.
    + eexists. simpl. rewrite (Hbufs i b Hb), decide_True by done.
      unfold expired_at in Hexp. rewrite Hb in Hexp. apply N.leb_le in Hexp.
      by rewrite buffer_run_slot_expired.
Qed.

Lemma filter_all_in {A} (P : A → Prop) `{!∀ x, Decision (P x)} (l : list A) :
  (∀ x, x ∈ l → P x) → filter P l = l.
Proof.
  induction l as [|x l IH]; intros Hall; [done|].
  rewrite filter_cons_True by (apply Hall; by left).
  f_equal. apply IH. intros y Hy. apply Hall. by right.
Qed.

Lemma filter_none_in {A} (P : A → Prop) `{!∀ x, Decision (P x)} (l : list A) :
  (∀ x, x ∈ l → ¬ P x) → filter P l = [].
Proof.
  induction l as [|x l IH]; intros Hnone; [done|].
  rewrite filter_cons_False by (apply Hnone; by left).
  apply IH. intros y Hy. apply Hnone. by right.
Qed.

Lemma none_expired_at slot p i :
  none_expired slot p → i ∈ reserved_buffers p →
  expired_at slot (buffer_pool p) i = false.
Proof.
  intros Hnone Hi. unfold expired_at.
  destruct (buffer_pool p !! i) as [b|] eqn:Hb; [|done].
  pose proof (Hnone i b Hi Hb).
  destruct (N.leb_spec (tx_buffer_impl.reservation_expire_slot b) slot); [lia | done].
Qed.

Lemma run_slot_noop slot p :
  pool_wf p → none_expired slot p → run_slot slot p = Some p.
Proof.
  intros Hwf Hnone.
  destruct (run_slot_visit_spec slot p Hwf) as (bufs' & Heq & Hlen & Hbufs).
  rewrite (filter_none_in (λ i, expired_at slot (buffer_pool p) i = true)),
    (filter_all_in (λ i, ¬ expired_at slot (buffer_pool p) i = true)),
    app_nil_r in Heq.
  - assert (bufs' = buffer_pool p) as ->.
    { apply list_eq. intros i. destruct (buffer_pool p !! i) as [b|] eqn:Hb.
      + rewrite (Hbufs i b Hb). case_decide; [|done].
        rewrite buffer_run_slot_kept; [done|]. by apply (Hnone i b).
      + apply lookup_ge_None. rewrite Hlen. by apply lookup_ge_None. }
    unfold run_slot. rewrite Heq. simpl. by destruct p.
  - intros i Hi. by rewrite (none_expired_at slot p i).
  - intros i Hi. by rewrite (none_expired_at slot p i).
Qed.

Lemma run_slot_none_expired slot p p' :
  pool_wf p → run_slot slot p = Some p' → none_expired slot p'.
Proof.
  intros Hwf Hrun.
  destruct (run_slot_visit_spec slot p Hwf) as (bufs' & Heq & Hlen & Hbufs).
  unfold run_slot in Hrun. rewrite Heq in Hrun. simpl in Hrun. simplify_eq.
  intros i b' Hi Hb'. simpl in Hi, Hb'.
  apply list_elem_of_filter in Hi as [Hexp Hi].
  destruct (pool_wf_lookup p i Hwf (or_intror Hi)) as [b Hb].
  rewrite (Hbufs i b Hb), decide_True in Hb' by done.
  unfold expired_at in Hexp. rewrite Hb in Hexp.
  assert (Hlt : slot < tx_buffer_impl.reservation_expire_slot b).
  { destruct (N.leb_spec (tx_buffer_impl.reservation_expire_slot b) slot);
      [done | lia]. }
  rewrite buffer_run_slot_kept in Hb' by done. by simplify_eq.
Qed.

(** X6. [run_slot] for a slot that no reserved buffer has reached as its
    expiry slot leaves the pool exactly as it was: the rotation of the
    reserved queue puts every index back in its place. *)
Theorem run_slot_before_expiry_is_identity slot p :
  pool_wf p → none_expired slot p → run_slot slot p = Some p.
Proof.
  intros Hwf Hnone.
  destruct (run_slot_visit_spec slot p Hwf) as (bufs' & Heq & Hlen & Hbufs).
  rewrite (filter_none_in (λ i, expired_at slot (buffer_pool p) i = true)),
    (filter_all_in (λ i, ¬ expired_at slot (buffer_pool p) i = true)),
    app_nil_r in Heq.
  - assert (bufs' = buffer_pool p) as ->.
    { apply list_eq. intros i. destruct (buffer_pool p !! i) as [b|] eqn:Hb.
      + rewrite (Hbufs i b Hb). case_decide; [|done].
        rewrite buffer_run_slot_kept; [done|]. by apply (Hnone i b).
      + apply lookup_ge_None. rewrite Hlen. by apply lookup_ge_None. }
    unfold run_slot. rewrite Heq. simpl. by destruct p.
  - intros i Hi. by rewrite (none_expired_at slot p i).
  - intros i Hi. by rewrite (none_expired_at slot p i).
Qed.

(** X7. [run_slot] twice for the same slot is [run_slot] once: the second
    call finds nothing to expire and changes nothing. *)
Theorem run_slot_idempotent slot p p' :
  pool_wf p → run_slot slot p = Some p' → run_slot slot p' = Some p'.
Proof.
  intros Hwf Hrun. apply run_slot_noop.
  - destruct (run_slot_wf slot p Hwf) as (p1 & Heq & Hwf1 & _). congruence.
  - by apply (run_slot_none_expired slot p).
Qed.

(** X8. Reservations under different identifiers never share a buffer. While
    the buffer handed out for [id1] is reserved (no later call returned a
    handle to it and no [run_slot] reached its expiry slot), a handle
    returned by [reserve_buffer] for another identifier, or by the overload
    without identifier, refers to another buffer. *)
Theorem other_identifier_other_buffer p S1 id1 n1 i p0 cs p1 hs :
  pool_wf p →
  reserve_buffer p S1 id1 n1 = Some (p0, Some i) →
  do_calls cs p0 = Some (p1, hs) →
  not_handed_out i hs →
  slots_before (S1 + expire_timeout_slots p) cs →
  (∀ S2 id2 n2 p2 j,
     id2 ≠ id1 → reserve_buffer p1 S2 id2 n2 = Some (p2, Some j) → j ≠ i) ∧
  (∀ S2 n2 p2 j, reserve_buffer_no_id p1 S2 n2 = Some (p2, Some j) → j ≠ i).
Proof.
  intros Hwf Hres Hrun Hhs Hslots.
  pose proof (reserve_buffer_handle p S1 id1 n1 p0 i Hwf Hres) as Hres0.
  assert (Hwf0 : pool_wf p0).
  { destruct (reserve_buffer_wf p S1 id1 n1 Hwf) as (p' & h & Heq & Hwf' & _).
    congruence. }
  destruct (do_calls_keep_reserved i id1 _ cs p0 p1 hs Hwf0 Hres0 Hrun Hhs Hslots)
    as [Hwf1 [Hi1 Hb1]].
  assert (Hfree : ∀ id e n p2 j,
            reserve_available p1 id e n = Some (p2, Some j) → j ≠ i).
  { intros id e n p2 j Hav ->.
    destruct (reserve_available_handle p1 id e n p2 i Hwf1 Hav) as [Htop _].
    apply (pool_wf_disjoint p1 i Hwf1); [|done].
    destruct (available_buffers p1); simpl in Htop; simplify_eq. by left. }
  split.
  - intros S2 id2 n2 p2 j Hid Hres2.
    destruct (reserve_buffer_spec p1 S2 id2 n2 Hwf1)
      as [(x & bx & q1 & q2 & Hq & Hbx & Hmx & _ & Heq) | [_ Heq]];
      rewrite Heq in Hres2.
    + destruct (max_codeblocks p1 <? n2); simplify_eq.
      intros ->. apply match_id_true in Hmx as [_ Hmx].
      rewrite Hb1 in Hbx. by simplify_eq.
    + by eapply Hfree.
  - intros S2 n2 p2 j Hres2. by eapply Hfree.
Qed.

(** X9. The calls keep the reserved queue and the buffers in step: if every
    buffer of the reserved queue is in state reserved and no identifier
    other than the null identifier is bound to two reserved buffers, the same
    holds after any sequence of calls. *)
Theorem identifier_bound_to_one_reserved_buffer p cs :
  pool_wf p →
  reserved_consistent p →
  ∃ p' hs, do_calls cs p = Some (p', hs) ∧ reserved_consistent p'.
Proof.
  intros Hwf Hcons.
  destruct (do_calls_wf cs p Hwf) as (p' & hs & Hrun & _).
  exists p', hs. split; [done|]. by apply (do_calls_consistent cs p p' hs).
Qed.

(** X14. A row of reservations under different identifiers, none of them
    bound to a reserved buffer, as many as there are free buffers at most and
    each within the codeblock capacity, all succeed: the handles are the
    first entries of the free queue, in queue order, and these indices move
    to the back of the reserved queue. *)
Theorem reserve_buffer_serves_free_queue slot n ids :
  ∀ p,
  pool_wf p →
  NoDup ids →
  (∀ id i b, id ∈ ids → i ∈ reserved_buffers p → buffer_pool p !! i = Some b →
             tx_buffer_impl.match_id b id = false) →
  (length ids ≤ length (available_buffers p))%nat →
  n ≤ max_codeblocks p →
  ∃ p',
    do_calls (map (λ id, call_reserve slot id n) ids) p =
      Some (p', map Some (take (length ids) (available_buffers p))) ∧
    available_buffers p' = drop (length ids) (available_buffers p) ∧
    reserved_buffers p' = reserved_buffers p ++ take (length ids) (available_buffers p).
Proof.
  induction ids as [|id ids IH]; intros p Hwf Hnd Hno Hlen Hn.
  - exists p. simpl. by rewrite drop_0, app_nil_r.
  - destruct (available_buffers p) as [|i q] eqn:Hav; [simpl in Hlen; lia|].
    apply NoDup_cons in Hnd as [Hid Hnd].
    destruct (reserve_buffer_fresh p slot id n i q Hwf) as (p1 & Hres & Hav1 & Hrs1 & Hbi & Hother);
      try done.
    { intros k bk. apply Hno. by left. }
    destruct (reserve_buffer_wf p slot id n Hwf) as (p1' & h & Hres' & Hwf1 & _ & _ & HM).
    assert (p1' = p1) as -> by congruence.
    destruct (IH p1) as (p' & Hrun & Hav' & Hrs'); try done.
    + intros id' k bk Hid' Hk Hbk. rewrite Hrs1 in Hk.
      destruct (decide (k = i)) as [-> | Hne].
      * rewrite Hbi in Hbk. simplify_eq.
        unfold tx_buffer_impl.match_id. simpl.
        rewrite (bool_decide_eq_false_2 (id = id')); [done|].
        intros ->. by apply Hid.
      * rewrite Hother in Hbk by done.
        apply elem_of_app in Hk as [Hk | Hk].
        -- apply (Hno id' k bk); [by right | done | done].
        -- by apply list_elem_of_singleton in Hk.
    + rewrite Hav1. simpl in Hlen. lia.
    + by rewrite HM.
    + exists p'. simpl. rewrite Hres. simpl. rewrite Hrun. simpl.
      rewrite Hav', Hrs', Hav1, Hrs1, <- app_assoc. done.
Qed.

(** * Further properties of the formatter *)

Lemma hex_digits_no_space n : no_space (fmt.hex_digits n).
Proof.
  unfold fmt.hex_digits. generalize (N.to_hex_uint n). intros d.
  induction d; simpl; try done; split; done.
Qed.

Lemma hex_digits_inj n m : fmt.hex_digits n = fmt.hex_digits m → n = m.
Proof.
  unfold fmt.hex_digits. intros H.
  apply (f_equal HexadecimalString.NilEmpty.uint_of_string) in H.
  rewrite !HexadecimalString.NilEmpty.usu in H.
  rewrite <- (HexadecimalN.Unsigned.of_to n), <- (HexadecimalN.Unsigned.of_to m).
  congruence.
Qed.

Lemma dec_digits_inj n m : fmt.dec_digits n = fmt.dec_digits m → n = m.
Proof.
  unfold fmt.dec_digits. intros H.
  apply (f_equal DecimalString.NilEmpty.uint_of_string) in H.
  rewrite !DecimalString.NilEmpty.usu in H.
  rewrite <- (DecimalN.Unsigned.of_to n), <- (DecimalN.Unsigned.of_to m).
  congruence.
Qed.

Lemma split_at_first_space h1 :
  ∀ h2 t1 t2,
  no_space h1 → no_space h2 →
  String.append h1 (String " " t1) = String.append h2 (String " " t2) →
  h1 = h2 ∧ t1 = t2.
Proof.
  induction h1 as [|c h1 IH]; intros h2 t1 t2 Hn1 Hn2 Heq.
  - destruct h2 as [|c2 h2]; simpl in *.
    + by simplify_eq.
    + destruct Hn2 as [Hc2 _]. simplify_eq.
  - destruct h2 as [|c2 h2]; simpl in *.
    + destruct Hn1 as [Hc _]. simplify_eq.
    + destruct Hn1 as [_ Hn1], Hn2 as [_ Hn2]. simplify_eq.
      destruct (IH h2 t1 t2 Hn1 Hn2) as [-> ->]; done.
Qed.

Lemma format_text value :
  fmt.format value =
    Some (String.append "rnti=0x"
            (String.append (fmt.hex_digits (rnti value))
               (String.append " h_id=" (fmt.dec_digits (harq_ack_id value))))).
Proof.
  assert (Hassoc : ∀ a b c : string,
            String.append (String.append a b) c = String.append a (String.append b c)).
  { intros a b c. induction a as [|x a IH]; simpl; [done | by rewrite IH]. }
  unfold fmt.format, fmt.format_to. cbn. by rewrite !Hassoc.
Qed.

(** X10. The text of an identifier names it: two identifiers with the same
    text are the same identifier. (The [rnti] digits have no blank, so the
    first blank of the text separates the two fields.) *)
Theorem format_injective v1 v2 : fmt.format v1 = fmt.format v2 → v1 = v2.
Proof.
  rewrite !format_text. intros H. simpl in H. injection H as H.
  apply split_at_first_space in H as [Hhex Hdec];
    [|apply hex_digits_no_space|apply hex_digits_no_space].
  injection Hdec as Hdec.
  apply hex_digits_inj in Hhex. apply dec_digits_inj in Hdec.
  destruct v1, v2; simpl in *. by subst.
Qed.

(** * Properties of the FAPI builders *)

Import fapi.

(** X11. [set_bch_payload_phy_timing_info] stores the 24 low bits of the
    payload and nothing of its 8 high bits, under the flag
    [phy_timing_info]; what it stores is what [set_bch_payload_mac_full]
    stores exactly when the payload is below [2^24]. *)
Theorem phy_timing_info_keeps_low_24_bits payload pdu :
  bch_payload_flag (dl_ssb_pdu_builder.set_bch_payload_phy_timing_info payload pdu)
    = phy_timing_info ∧
  bch_payload_bch_payload
    (bch_payload (dl_ssb_pdu_builder.set_bch_payload_phy_timing_info payload pdu))
    = payload mod 2 ^ 24 ∧
  bch_payload_bch_payload
    (bch_payload (dl_ssb_pdu_builder.set_bch_payload_phy_timing_info payload pdu))
    < 2 ^ 24 ∧
  (∀ i, N.testbit
          (bch_payload_bch_payload
             (bch_payload
                (dl_ssb_pdu_builder.set_bch_payload_phy_timing_info payload pdu))) i
        = (i <? 24) && N.testbit payload i) ∧
  (bch_payload_bch_payload
     (bch_payload (dl_ssb_pdu_builder.set_bch_payload_phy_timing_info payload pdu))
   = bch_payload_bch_payload
       (bch_payload (dl_ssb_pdu_builder.set_bch_payload_mac_full payload pdu))
   ↔ payload < 2 ^ 24).
Proof.
  simpl. change 16777215 with (N.ones 24).
  assert (Hmod : N.land payload (N.ones 24) = payload mod 2 ^ 24)
    by apply N.land_ones.
  split; [done|]. split; [done|]. split.
  { rewrite Hmod. by apply N.mod_lt. }
  split.
  - intros i. rewrite N.land_spec, andb_comm. f_equal.
    destruct (N.ltb_spec i 24).
    + by apply N.ones_spec_low.
    + by apply N.ones_spec_high.
  - rewrite Hmod. split.
    + intros H. rewrite <- H. by apply N.mod_lt.
    + intros H. by apply N.mod_small.
Qed.

Lemma count_type_app t l1 l2 :
  dl_tti_request_message_builder.count_type t (l1 ++ l2) =
    (dl_tti_request_message_builder.count_type t l1 +
     dl_tti_request_message_builder.count_type t l2)%nat.
Proof.
  unfold dl_tti_request_message_builder.count_type.
  by rewrite filter_app, length_app.
Qed.

Lemma count_type_singleton t pdu :
  dl_tti_request_message_builder.count_type t [pdu] =
    if decide (pdu_type pdu = t) then 1%nat else 0%nat.
Proof.
  unfold dl_tti_request_message_builder.count_type.
  rewrite filter_cons, filter_nil. by case_decide.
Qed.

Lemma count_type_take t pos l :
  (dl_tti_request_message_builder.count_type t (take pos l) ≤
   dl_tti_request_message_builder.count_type t l)%nat.
Proof.
  rewrite <- (take_drop pos l) at 2. rewrite count_type_app. lia.
Qed.

Lemma increment_count bits n :
  dl_tti_request_message_builder.increment bits (N.of_nat n mod 2 ^ bits) =
    N.of_nat (n + 1) mod 2 ^ bits.
Proof.
  unfold dl_tti_request_message_builder.increment.
  rewrite N.Div0.add_mod_idemp_l. f_equal. lia.
Qed.

(** Appending a PDU of type [t] and incrementing the counter of [t] keeps
    the counters in step with the PDUs. *)
Lemma counters_agree_append bits msg t pdu msg' :
  dl_tti_request_message_builder.counters_agree bits msg →
  pdu_type pdu = t →
  pdus msg' = pdus msg ++ [pdu] →
  num_pdus_of_each_type msg' =
    dl_tti_request_message_builder.set_counter (num_pdus_of_each_type msg) t
      (dl_tti_request_message_builder.increment bits (num_pdus_of_each_type msg t)) →
  dl_tti_request_message_builder.counters_agree bits msg'.
Proof.
  intros Hagree Ht Hpdus Hnum t'. rewrite Hnum, Hpdus.
  unfold dl_tti_request_message_builder.set_counter.
  rewrite count_type_app, count_type_singleton, Ht.
  destruct (decide (t' = t)) as [-> | Hne].
  - rewrite decide_True by done. rewrite (Hagree t). apply increment_count.
  - rewrite decide_False by done. rewrite (Hagree t'). f_equal. lia.
Qed.

Lemma do_call_counters cw iw c msg :
  dl_tti_request_message_builder.counters_agree cw msg →
  dl_tti_request_message_builder.counters_agree cw
    (dl_tti_request_message_builder.do_call cw iw c msg).
Proof.
  intros Hagree. destruct c; simpl.
  - done.
  - by apply (counters_agree_append cw msg PDCCH
                (dl_tti_request_message_builder.set_pdu_type PDCCH
                   dl_tti_request_message_builder.new_pdu)).
  - by apply (counters_agree_append cw msg PDSCH
                (dl_tti_request_message_builder.set_pdu_type PDSCH
                   dl_tti_request_message_builder.new_pdu)).
  - by apply (counters_agree_append cw msg CSI_RS
                (dl_tti_request_message_builder.set_pdu_type CSI_RS
                   dl_tti_request_message_builder.new_pdu)).
  - eapply (counters_agree_append cw msg SSB); [done | | reflexivity | reflexivity].
    reflexivity.
Qed.

Lemma do_call_pdus cw iw c msg :
  ∃ added,
    pdus (dl_tti_request_message_builder.do_call cw iw c msg) = pdus msg ++ added ∧
    length added = if dl_tti_request_message_builder.is_add c then 1%nat else 0%nat.
Proof.
  destruct c; simpl.
  - exists []. by rewrite app_nil_r.
  - by eexists [_].
  - by eexists [_].
  - by eexists [_].
  - by eexists [_].
Qed.

(** X12. The message builder keeps [num_pdus_of_each_type] in step with
    [pdus]: if each counter is the number of PDUs of its type (modulo the
    width of the counter) before a sequence of builder calls, it is so after
    it. The calls only append: the PDUs that were in the message stay, in
    place and unchanged, and one PDU is appended for each [add] call. *)
Theorem builder_counters_count_pdus cw iw cs :
  ∀ msg,
  dl_tti_request_message_builder.counters_agree cw msg →
  dl_tti_request_message_builder.counters_agree cw
    (dl_tti_request_message_builder.do_calls cw iw cs msg) ∧
  ∃ added,
    pdus (dl_tti_request_message_builder.do_calls cw iw cs msg) = pdus msg ++ added ∧
    length added = length (filter (λ c, dl_tti_request_message_builder.is_add c = true) cs).
Proof.
  induction cs as [|c cs IH]; intros msg Hagree.
  - split; [done|]. exists []. by rewrite app_nil_r.
  - destruct (IH (dl_tti_request_message_builder.do_call cw iw c msg))
      as (Hagree' & added' & Hpdus' & Hlen').
    { by apply do_call_counters. }
    split; [done|].
    destruct (do_call_pdus cw iw c msg) as (added & Hpdus & Hlen).
    exists (added ++ added'). split.
    + unfold dl_tti_request_message_builder.do_calls in *. simpl.
      by rewrite Hpdus', Hpdus, app_assoc.
    + rewrite length_app, Hlen, Hlen', filter_cons.
      destruct (dl_tti_request_message_builder.is_add c); simpl; done.
Qed.

(** Appending a PDU keeps the SSB PDUs numbered when the appended PDU is not
    an SSB PDU or carries the number of SSB PDUs before it. *)
Lemma ssb_indexed_append cw iw l pdu :
  dl_tti_request_message_builder.ssb_indexed cw iw l →
  (pdu_type pdu = SSB →
   ssb_pdu_index (ssb_maintenance_v3 (ssb_pdu pdu)) =
     (N.of_nat (dl_tti_request_message_builder.count_type SSB l) mod 2 ^ cw)
       mod 2 ^ iw) →
  dl_tti_request_message_builder.ssb_indexed cw iw (l ++ [pdu]).
Proof.
  intros Hind Hnew pos pdu' Hlookup Htype.
  destruct (decide (pos < length l)%nat) as [Hlt | Hge].
  - rewrite lookup_app_l in Hlookup by done.
    rewrite take_app_le by lia. by apply Hind.
  - rewrite lookup_app_r in Hlookup by lia.
    apply list_lookup_singleton_Some in Hlookup as [Hpos <-].
    assert (pos = length l) as -> by lia.
    rewrite take_app_length. by apply Hnew.
Qed.

Lemma do_call_ssb_indexed cw iw c msg :
  dl_tti_request_message_builder.counters_agree cw msg →
  dl_tti_request_message_builder.ssb_indexed cw iw (pdus msg) →
  dl_tti_request_message_builder.ssb_indexed cw iw
    (pdus (dl_tti_request_message_builder.do_call cw iw c msg)).
Proof.
  intros Hagree Hind. destruct c; simpl.
  - done.
  - by apply ssb_indexed_append.
  - by apply ssb_indexed_append.
  - by apply ssb_indexed_append.
  - apply ssb_indexed_append; [done|]. intros _. simpl. by rewrite (Hagree SSB).
Qed.

(** X13. The SSB PDUs of a message are numbered in the order in which they
    were added: if [ssb_pdu_index] of every SSB PDU is the number of SSB PDUs
    before it (modulo the widths of the counter and of the index) and the
    counters are in step before a sequence of builder calls, both hold after
    it; as long as the number of SSB PDUs fits the two widths, the index is
    that number itself. *)
Theorem builder_numbers_ssb_pdus cw iw cs :
  ∀ msg,
  dl_tti_request_message_builder.counters_agree cw msg →
  dl_tti_request_message_builder.ssb_indexed cw iw (pdus msg) →
  dl_tti_request_message_builder.ssb_indexed cw iw
    (pdus (dl_tti_request_message_builder.do_calls cw iw cs msg)) ∧
  (N.of_nat (dl_tti_request_message_builder.count_type SSB
               (pdus (dl_tti_request_message_builder.do_calls cw iw cs msg)))
     < 2 ^ N.min cw iw →
   ∀ pos pdu,
     pdus (dl_tti_request_message_builder.do_calls cw iw cs msg) !! pos = Some pdu →
     pdu_type pdu = SSB →
     ssb_pdu_index (ssb_maintenance_v3 (ssb_pdu pdu)) =
       N.of_nat (dl_tti_request_message_builder.count_type SSB
                   (take pos (pdus (dl_tti_request_message_builder.do_calls cw iw cs msg))))).
Proof.
  assert (Hexact : ∀ l,
            dl_tti_request_message_builder.ssb_indexed cw iw l →
            N.of_nat (dl_tti_request_message_builder.count_type SSB l) < 2 ^ N.min cw iw →
            ∀ pos pdu, l !! pos = Some pdu → pdu_type pdu = SSB →
              ssb_pdu_index (ssb_maintenance_v3 (ssb_pdu pdu)) =
                N.of_nat (dl_tti_request_message_builder.count_type SSB (take pos l))).
  { intros l Hind Hfit pos pdu Hlookup Htype.
    rewrite (Hind pos pdu Hlookup Htype).
    pose proof (count_type_take SSB pos l) as Hle.
    assert (Hcw : 2 ^ N.min cw iw ≤ 2 ^ cw)
      by (apply N.pow_le_mono_r; [done | apply N.le_min_l]).
    assert (Hiw : 2 ^ N.min cw iw ≤ 2 ^ iw)
      by (apply N.pow_le_mono_r; [done | apply N.le_min_r]).
    rewrite (N.mod_small _ (2 ^ cw)) by lia. by rewrite N.mod_small by lia. }
  induction cs as [|c cs IH]; intros msg Hagree Hind.
  - split; [done|]. by apply Hexact.
  - destruct (IH (dl_tti_request_message_builder.do_call cw iw c msg))
      as [Hind' _].
    { by apply do_call_counters. }
    { by apply do_call_ssb_indexed. }
    split; [done|]. by apply Hexact.
Qed.

(** * The further properties at concrete inputs *)

Lemma reserve_buffer_takes_first_free_witness :
  pool_wf (example_pool_reserved id_B) ∧
  ∃ p',
    reserve_buffer (example_pool_reserved id_B) 10 id_A 3 = Some (p', Some 0%nat) ∧
    available_buffers p' = [] ∧
    reserved_buffers p' = [1%nat; 0%nat].
Proof.
  split; [unfold pool_wf; simpl; reflexivity|].
  destruct (reserve_buffer_takes_first_free (example_pool_reserved id_B) 10 id_A 3 0 [])
    as (p' & Hres & Hav & Hrs & _).
  - unfold pool_wf. simpl. reflexivity.
  - intros k bk Hk Hbk. simpl in Hk.
    apply elem_of_cons in Hk as [-> | Hk]; [vm_compute in Hbk; simplify_eq; reflexivity|].
    by apply not_elem_of_nil in Hk.
  - reflexivity.
  - simpl. lia.
  - by exists p'.
Defined.

Lemma reserve_moves_at_most_the_handle_witness :
  pool_wf example_pool_full ∧
  ∃ p',
    do_call (call_reserve 11 id_C 1) example_pool_full = Some (p', None) ∧
    available_buffers p' = available_buffers example_pool_full ∧
    reserved_buffers p' = reserved_buffers example_pool_full.
Proof.
  assert (Hwf : pool_wf example_pool_full) by (unfold pool_wf; simpl; reflexivity).
  split; [exact Hwf|].
  destruct (do_call_wf (call_reserve 11 id_C 1) example_pool_full Hwf)
    as (p' & h & Hcall & _).
  assert (h = None) as -> by (vm_compute in Hcall; congruence).
  exists p'. split; [exact Hcall|].
  apply (reserve_moves_at_most_the_handle example_pool_full (call_reserve 11 id_C 1)
           p' None Hwf); [discriminate | exact Hcall].
Defined.

Lemma run_slot_rotation_witness :
  pool_wf example_pool_full ∧
  ∃ p',
    run_slot 14 example_pool_full = Some p' ∧
    reserved_buffers p' = [1%nat] ∧
    available_buffers p' = [0%nat].
Proof.
  split; [unfold pool_wf; simpl; reflexivity|].
  destruct (run_slot_rotation 14 example_pool_full) as (p' & Hrun & Hrs & Hav & _).
  { unfold pool_wf. simpl. reflexivity. }
  exists p'. split; [exact Hrun|]. by rewrite Hrs, Hav.
Defined.

Lemma run_slot_leaves_no_expired_witness :
  pool_wf example_pool_full ∧
  ∃ p',
    run_slot 14 example_pool_full = Some p' ∧
    is_free p' 0.
Proof.
  assert (Hwf : pool_wf example_pool_full) by (unfold pool_wf; simpl; reflexivity).
  split; [exact Hwf|].
  destruct (run_slot_wf 14 example_pool_full Hwf) as (p' & Hrun & _).
  exists p'. split; [exact Hrun|].
  destruct (run_slot_leaves_no_expired 14 example_pool_full p' Hwf Hrun) as [_ Hfree].
  apply Hfree.
  - simpl. apply elem_of_cons. by left.
  - vm_compute in Hrun. injection Hrun as <-. simpl.
    intros H. apply list_elem_of_singleton in H. discriminate H.
Defined.

Lemma run_slot_before_expiry_is_identity_witness :
  pool_wf example_pool_full ∧
  none_expired 13 example_pool_full ∧
  run_slot 13 example_pool_full = Some example_pool_full.
Proof.
  assert (Hwf : pool_wf example_pool_full) by (unfold pool_wf; simpl; reflexivity).
  assert (Hnone : none_expired 13 example_pool_full).
  { intros i b Hi Hb. simpl in Hi.
    apply elem_of_cons in Hi as [-> | Hi]; [vm_compute in Hb; simplify_eq; reflexivity|].
    apply elem_of_cons in Hi as [-> | Hi]; [vm_compute in Hb; simplify_eq; reflexivity|].
    by apply not_elem_of_nil in Hi. }
  split; [exact Hwf|]. split; [exact Hnone|].
  by apply run_slot_before_expiry_is_identity.
Defined.

Lemma run_slot_idempotent_witness :
  pool_wf example_pool_full ∧
  ∃ p', run_slot 14 example_pool_full = Some p' ∧ run_slot 14 p' = Some p'.
Proof.
  assert (Hwf : pool_wf example_pool_full) by (unfold pool_wf; simpl; reflexivity).
  split; [exact Hwf|].
  destruct (run_slot_wf 14 example_pool_full Hwf) as (p' & Hrun & _).
  exists p'. split; [exact Hrun|].
  by apply (run_slot_idempotent 14 example_pool_full).
Defined.

Lemma other_identifier_other_buffer_witness :
  pool_wf example_pool ∧
  ∃ p0 p2 j,
    reserve_buffer example_pool 10 id_A 3 = Some (p0, Some 0%nat) ∧
    reserve_buffer p0 10 id_B 3 = Some (p2, Some j) ∧
    j ≠ 0%nat.
Proof.
  assert (Hwf : pool_wf example_pool) by (unfold pool_wf; simpl; reflexivity).
  split; [exact Hwf|].
  destruct (reserve_buffer_wf example_pool 10 id_A 3 Hwf) as (p0 & h & Hres & Hwf0 & _).
  assert (h = Some 0%nat) as -> by (vm_compute in Hres; congruence).
  destruct (reserve_buffer_wf p0 10 id_B 3 Hwf0) as (p2 & h2 & Hres2 & _).
  assert (h2 = Some 1%nat) as ->.
  { vm_compute in Hres. injection Hres as <-. vm_compute in Hres2. congruence. }
  exists p0, p2, 1%nat. split; [exact Hres|]. split; [exact Hres2|].
  destruct (other_identifier_other_buffer example_pool 10 id_A 3 0 p0 [] p0 []
              Hwf Hres eq_refl) as [Hother _].
  - intros H. by apply not_elem_of_nil in H.
  - intros s H. by apply not_elem_of_nil in H.
  - apply (Hother 10 id_B 3 p2 1%nat); [discriminate | exact Hres2].
Defined.

Lemma identifier_bound_to_one_reserved_buffer_witness :
  pool_wf example_pool_full ∧
  reserved_consistent example_pool_full ∧
  ∃ p' hs,
    do_calls [call_run_slot 14; call_reserve 14 id_C 1] example_pool_full =
      Some (p', hs) ∧
    reserved_consistent p'.
Proof.
  assert (Hwf : pool_wf example_pool_full) by (unfold pool_wf; simpl; reflexivity).
  assert (Hcons : reserved_consistent example_pool_full).
  { split.
    - intros i b Hi Hb. simpl in Hi.
      apply elem_of_cons in Hi as [-> | Hi]; [vm_compute in Hb; by simplify_eq|].
      apply elem_of_cons in Hi as [-> | Hi]; [vm_compute in Hb; by simplify_eq|].
      by apply not_elem_of_nil in Hi.
    - intros i j bi bj Hi Hj Hbi Hbj Hsame _. simpl in Hi, Hj.
      repeat (apply elem_of_cons in Hi as [-> | Hi]);
        try (by apply not_elem_of_nil in Hi);
        repeat (apply elem_of_cons in Hj as [-> | Hj]);
        try (by apply not_elem_of_nil in Hj);
        try done; vm_compute in Hbi, Hbj; by simplify_eq. }
  split; [exact Hwf|]. split; [exact Hcons|].
  by apply identifier_bound_to_one_reserved_buffer.
Defined.

Lemma format_injective_witness :
  fmt.format id_A = fmt.format {| rnti := 17921; harq_ack_id := 1 |} ∧
  id_A = {| rnti := 17921; harq_ack_id := 1 |}.
Proof.
  split; [reflexivity|]. apply format_injective. reflexivity.
Defined.

Lemma builder_counters_count_pdus_witness :
  dl_tti_request_message_builder.counters_agree 16
    dl_tti_request_message_builder.empty_message ∧
  dl_tti_request_message_builder.counters_agree 16
    (dl_tti_request_message_builder.do_calls 16 8
       [dl_tti_request_message_builder.call_add_ssb_pdu 1 0 0 0 0;
        dl_tti_request_message_builder.call_add_pdcch_pdu;
        dl_tti_request_message_builder.call_add_ssb_pdu 1 0 1 0 0]
       dl_tti_request_message_builder.empty_message).
Proof.
  assert (Hagree : dl_tti_request_message_builder.counters_agree 16
                     dl_tti_request_message_builder.empty_message).
  { intros t. reflexivity. }
  split; [exact Hagree|].
  by apply (builder_counters_count_pdus 16 8).
Defined.

Lemma builder_numbers_ssb_pdus_witness :
  dl_tti_request_message_builder.counters_agree 16
    dl_tti_request_message_builder.empty_message ∧
  dl_tti_request_message_builder.ssb_indexed 16 8
    (pdus dl_tti_request_message_builder.empty_message) ∧
  dl_tti_request_message_builder.ssb_indexed 16 8
    (pdus (dl_tti_request_message_builder.do_calls 16 8
             [dl_tti_request_message_builder.call_add_ssb_pdu 1 0 0 0 0;
              dl_tti_request_message_builder.call_add_pdcch_pdu;
              dl_tti_request_message_builder.call_add_ssb_pdu 1 0 1 0 0]
             dl_tti_request_message_builder.empty_message)).
Proof.
  assert (Hagree : dl_tti_request_message_builder.counters_agree 16
                     dl_tti_request_message_builder.empty_message).
  { intros t. reflexivity. }
  assert (Hind : dl_tti_request_message_builder.ssb_indexed 16 8
                   (pdus dl_tti_request_message_builder.empty_message)).
  { intros pos pdu Hlookup. simpl in Hlookup. by rewrite lookup_nil in Hlookup. }
  split; [exact Hagree|]. split; [exact Hind|].
  by apply (builder_numbers_ssb_pdus 16 8).
Defined.

Lemma reserve_buffer_serves_free_queue_witness :
  pool_wf example_pool ∧
  ∃ p',
    do_calls [call_reserve 10 id_A 3; call_reserve 10 id_B 3] example_pool =
      Some (p', [Some 0%nat; Some 1%nat]) ∧
    available_buffers p' = [] ∧
    reserved_buffers p' = [0%nat; 1%nat].
Proof.
  assert (Hwf : pool_wf example_pool) by (unfold pool_wf; simpl; reflexivity).
  split; [exact Hwf|].
  destruct (reserve_buffer_serves_free_queue 10 3 [id_A; id_B] example_pool Hwf)
    as (p' & Hrun & Hav & Hrs).
  - apply NoDup_cons. split.
    + intros H. apply list_elem_of_singleton in H. discriminate H.
    + apply NoDup_cons. split; [apply not_elem_of_nil | apply NoDup_nil_2].
  - intros id i b _ Hi. simpl in Hi. by apply not_elem_of_nil in Hi.
  - simpl. lia.
  - simpl. lia.
  - by exists p'.
Defined.
